(** * Offline outbox queue and order-sync repository of retail-pos

    A shallow embedding of
    - [src/stores/syncStore.ts]            (the persistent outbox queue),
    - [src/services/queue/QueueManager.ts] (the drain triggers),
    - the [BasketRepository] local-order statements ([findUnsyncedOrders],
      [updateOrderSyncSuccess], [updateOrderSyncError], ...),
    followed by the properties of the specification that concern them. *)

From Stdlib Require Import ZArith String List Bool Lia.
From Stdlib Require Import QArith_base.
From Stdlib Require Import Sorting.Sorted Sorting.Permutation.
Import ListNotations.

Local Open Scope string_scope.
Local Open Scope Z_scope.

(* ================================================================== *)
(** ** The outbox queue: [src/stores/syncStore.ts]                     *)
(* ================================================================== *)

Module SyncStore.

(** [QueuedRequest.method] *)
Inductive HttpMethod := GET | POST | PUT | DELETE | PATCH.

(** [interface QueuedRequest].  Dates are milliseconds since the epoch; an
    optional field ([?:]) is an [option]; [body] is carried as its JSON
    text, which the queue never inspects. *)
Record QueuedRequest := mkRequest {
  id            : string;
  url           : string;
  method        : HttpMethod;
  body          : option string;
  headers       : option (list (string * string));
  attempts      : nat;
  maxAttempts   : option nat;
  createdAt     : Z;
  lastAttemptAt : option Z;
  nextRetryAt   : option Z;
  requestId     : option string
}.

(** [Omit<QueuedRequest, 'id' | 'attempts' | 'createdAt'>], the argument of
    [addToQueue]. *)
Record NewRequest := mkNew {
  nr_url           : string;
  nr_method        : HttpMethod;
  nr_body          : option string;
  nr_headers       : option (list (string * string));
  nr_maxAttempts   : option nat;
  nr_lastAttemptAt : option Z;
  nr_nextRetryAt   : option Z;
  nr_requestId     : option string
}.

(** The persisted part of [SyncStoreState] together with the flag. *)
Record SyncStoreState := mkStore {
  queue        : list QueuedRequest;
  isProcessing : bool
}.

(** [queue: [], isProcessing: false] *)
Definition initialState : SyncStoreState := mkStore [] false.

Definition set_queue (q : list QueuedRequest) (st : SyncStoreState) :=
  mkStore q (isProcessing st).
Definition set_isProcessing (b : bool) (st : SyncStoreState) :=
  mkStore (queue st) b.

(** What [await fetch(...)] gives back: a response with its status, or a
    rejected promise (the [catch] branch). *)
Inductive FetchResult :=
| Response (status : Z)
| NetworkError.

(** The two clock reads of the server-error branch: [Date.now()] (l.69) and
    [new Date()] (l.73). *)
Record Clock := mkClock {
  date_now : Z;
  new_date : Z
}.

(** The world as seen by one pass of [processQueue]: the outcome of the
    [fetch] issued at loop index [i] and the clock at that iteration. *)
Record World := mkWorld {
  fetch : nat -> FetchResult;
  clock : nat -> Clock
}.

(** What [addToQueue] draws from the clock and the random generator: the new
    [id], the fallback [requestId] and [createdAt]. *)
Record Fresh := mkFresh {
  fresh_id        : string;
  fresh_requestId : string;
  fresh_createdAt : Z
}.

(** [response.ok]: status in the range 200-299. *)
Definition ok (status : Z) : bool := (200 <=? status) && (status <=? 299).

(** [Math.min(30000 * Math.pow(2, attempts - 1), 300000)].  For a counter
    [attempts >= 1] the double arithmetic is exact: [30000 * 2^k] is
    representable until it overflows to [Infinity], where the minimum is
    [300000] as well. *)
Definition baseDelay : Z := 30000.
Definition maxDelay : Z := 300000.
Definition backoffMs (attempts : nat) : Z :=
  Z.min (baseDelay * 2 ^ (Z.of_nat attempts - 1)) maxDelay.

(** [state.queue.filter((item) => item.id !== id)] *)
Definition removeById (i : string) (q : list QueuedRequest) : list QueuedRequest :=
  filter (fun item => negb (String.eqb (id item) i)) q.

(** [removeFromQueue] *)
Definition removeFromQueue (i : string) (st : SyncStoreState) : SyncStoreState :=
  set_queue (removeById i (queue st)) st.

(** The [Partial<QueuedRequest>] that [processQueue] passes to
    [updateRequest]: [{ attempts, lastAttemptAt, nextRetryAt }]. *)
Record Updates := mkUpdates {
  u_attempts      : nat;
  u_lastAttemptAt : Z;
  u_nextRetryAt   : Z
}.

(** [{ ...item, ...updates }] *)
Definition applyUpdates (item : QueuedRequest) (u : Updates) : QueuedRequest :=
  mkRequest (id item) (url item) (method item) (body item) (headers item)
            (u_attempts u) (maxAttempts item) (createdAt item)
            (Some (u_lastAttemptAt u)) (Some (u_nextRetryAt u))
            (requestId item).

(** [updateRequest] *)
Definition updateRequest (i : string) (u : Updates) (st : SyncStoreState)
  : SyncStoreState :=
  set_queue (map (fun item => if String.eqb (id item) i
                              then applyUpdates item u else item)
                 (queue st)) st.

(** [clearQueue] *)
Definition clearQueue (st : SyncStoreState) : SyncStoreState := set_queue [] st.

(** [getQueueLength] *)
Definition getQueueLength (st : SyncStoreState) : nat := length (queue st).

(** The body of the [for] loop of [processQueue] from the point where the
    awaited [fetch] settles.  The boolean is [false] when the iteration ends
    in [break]. *)
Definition handleResult (c : Clock) (action : QueuedRequest) (r : FetchResult)
           (st : SyncStoreState) : SyncStoreState * bool :=
  match r with
  | Response status =>
      if ok status then
        (set_queue (removeById (id action) (queue st)) st, true)
      else if 500 <=? status then
        let attempts' := (attempts action + 1)%nat in
        let backoff := backoffMs attempts' in
        let nextRetry := date_now c + backoff in
        (updateRequest (id action)
                       (mkUpdates attempts' (new_date c) nextRetry) st,
         false)
      else if 400 <=? status then
        (set_queue (removeById (id action) (queue st)) st, true)
      else
        (st, true)
  | NetworkError => (st, false)
  end.

(** One delivery attempt of a pass: the loop index, the entry read from the
    snapshot ([queue[i]]) and what [fetch] gave. *)
Record Attempt := mkAttempt {
  att_index  : nat;
  att_action : QueuedRequest;
  att_result : FetchResult
}.

(** [for (let i = 0; i < queue.length; i++)] over the snapshot [queue] taken
    at the start of the pass; [acts] is the part of the snapshot from index
    [i] on.  The store is read afresh by every [set]. *)
Fixpoint drainLoop (w : World) (acts : list QueuedRequest) (i : nat)
         (st : SyncStoreState) : SyncStoreState * list Attempt :=
  match acts with
  | [] => (st, [])
  | action :: rest =>
      let r := fetch w i in
      let '(st', continue) := handleResult (clock w i) action r st in
      if continue
      then let '(st'', tr) := drainLoop w rest (S i) st' in
           (st'', mkAttempt i action r :: tr)
      else (st', [mkAttempt i action r])
  end.

(** [processQueue], run to completion without another task interleaved. *)
Definition processQueue (w : World) (st : SyncStoreState)
  : SyncStoreState * list Attempt :=
  match queue st with
  | [] => (set_isProcessing false st, [])
  | _ :: _ =>
      let '(st', tr) := drainLoop w (queue st) 0 (set_isProcessing true st) in
      (set_isProcessing false st', tr)
  end.

(** [request.requestId || `req_...`]: an absent or empty id is falsy. *)
Definition requestIdOrFresh (r : option string) (g : Fresh) : string :=
  match r with
  | Some s => if String.eqb s "" then fresh_requestId g else s
  | None => fresh_requestId g
  end.

(** [newRequest] of [addToQueue]. *)
Definition newRequest (g : Fresh) (request : NewRequest) : QueuedRequest :=
  mkRequest (fresh_id g) (nr_url request) (nr_method request)
            (nr_body request) (nr_headers request)
            0%nat (nr_maxAttempts request) (fresh_createdAt g)
            (nr_lastAttemptAt request) (nr_nextRetryAt request)
            (Some (requestIdOrFresh (nr_requestId request) g)).

(** The synchronous part of [addToQueue]: [queue: [...state.queue, newRequest]]. *)
Definition appendRequest (g : Fresh) (request : NewRequest) (st : SyncStoreState)
  : SyncStoreState :=
  set_queue (queue st ++ [newRequest g request]) st.

(** [addToQueue], with the pass it starts run to completion. *)
Definition addToQueue (w : World) (g : Fresh) (request : NewRequest)
           (st : SyncStoreState) : SyncStoreState * list Attempt :=
  let st' := appendRequest g request st in
  if negb (isProcessing st') then processQueue w st' else (st', []).

End SyncStore.

(* ================================================================== *)
(** ** The drain triggers: [src/services/queue/QueueManager.ts]        *)
(* ================================================================== *)

Module QueueManager.
Import SyncStore.

(** A call of [processQueue] suspended at [await fetch(queue[i])]: the part
    of its snapshot from index [i] on, and [i]. *)
Record Task := mkTask {
  pending : list QueuedRequest;
  index   : nat
}.

(** The store, the suspended [processQueue] calls (oldest first) and the
    requests handed to [fetch] so far (oldest first). *)
Record System := mkSystem {
  store  : SyncStoreState;
  tasks  : list Task;
  issued : list QueuedRequest
}.

Definition idle (st : SyncStoreState) : System := mkSystem st [] [].

(** [processQueue] from its call to its first [await]. *)
Definition startProcessQueue (s : System) : System :=
  match queue (store s) with
  | [] => mkSystem (set_isProcessing false (store s)) (tasks s) (issued s)
  | action :: _ =>
      mkSystem (set_isProcessing true (store s))
               (tasks s ++ [mkTask (queue (store s)) 0])%list
               (issued s ++ [action])%list
  end.

Fixpoint removeNth {A} (k : nat) (l : list A) : list A :=
  match l, k with
  | [], _ => []
  | _ :: l', O => l'
  | x :: l', S k' => x :: removeNth k' l'
  end.

Fixpoint replaceNth {A} (k : nat) (y : A) (l : list A) : list A :=
  match l, k with
  | [], _ => []
  | _ :: l', O => y :: l'
  | x :: l', S k' => x :: replaceNth k' y l'
  end.

(** The [fetch] of task [k] settles: the loop body runs, then either the
    loop reaches its next [await] or the call ends with
    [set({ isProcessing: false })]. *)
Definition settle (k : nat) (c : Clock) (r : FetchResult) (s : System) : System :=
  match nth_error (tasks s) k with
  | None => s
  | Some t =>
      match pending t with
      | [] => s
      | action :: rest =>
          let '(st', continue) := handleResult c action r (store s) in
          match (if continue then rest else []) with
          | [] => mkSystem (set_isProcessing false st')
                           (removeNth k (tasks s)) (issued s)
          | next :: _ =>
              mkSystem st'
                       (replaceNth k (mkTask rest (S (index t))) (tasks s))
                       (issued s ++ [next])%list
          end
      end
  end.

(** [AppStateStatus] *)
Inductive AppStateStatus := active | background | inactive.

(** [queue.some(request => request.nextRetryAt && request.nextRetryAt <= now)] *)
Definition hasReadyRequests (now : Z) (q : list QueuedRequest) : bool :=
  existsb (fun request => match nextRetryAt request with
                          | Some t => t <=? now
                          | None => false
                          end) q.

(** What can happen to the running application. *)
Inductive Event :=
| NetInfoChange (isConnected isInternetReachable : bool)
| AppStateChange (nextAppState : AppStateStatus)
| TimerTick (now : Z)
| ManualTrigger
| Enqueue (g : Fresh) (request : NewRequest)
| FetchSettled (k : nat) (c : Clock) (r : FetchResult).

Definition step (s : System) (e : Event) : System :=
  match e with
  | NetInfoChange isConnected isInternetReachable =>
      if isConnected && isInternetReachable then startProcessQueue s else s
  | AppStateChange nextAppState =>
      match nextAppState with
      | active => startProcessQueue s
      | _ => s
      end
  | TimerTick now =>
      if hasReadyRequests now (queue (store s)) then startProcessQueue s else s
  | ManualTrigger => startProcessQueue s
  | Enqueue g request =>
      let s' := mkSystem (appendRequest g request (store s)) (tasks s) (issued s) in
      if negb (isProcessing (store s')) then startProcessQueue s' else s'
  | FetchSettled k c r => settle k c r s
  end.

Definition run (s : System) (es : list Event) : System := fold_left step es s.

(** The replies that let a single pass run to its end in the world [w]. *)
Fixpoint replies (w : World) (i n : nat) : list Event :=
  match n with
  | O => []
  | S n' => FetchSettled 0 (clock w i) (fetch w i) :: replies w (S i) n'
  end.

End QueueManager.

(* ================================================================== *)
(** ** Sequences of queue operations                                   *)
(* ================================================================== *)

Module Outbox.
Import SyncStore.

(** The two operations of the specification's outbox, each run to the end
    of the pass it starts: [enqueue] is [addToQueue], [drain] is
    [processQueue]. *)
Inductive Op :=
| OpEnqueue (w : World) (g : Fresh) (request : NewRequest)
| OpDrain (w : World).

Definition exec (st : SyncStoreState) (o : Op) : SyncStoreState * list Attempt :=
  match o with
  | OpEnqueue w g request => addToQueue w g request st
  | OpDrain w => processQueue w st
  end.

(** The store after a sequence of operations. *)
Fixpoint execAll (st : SyncStoreState) (os : list Op) : SyncStoreState :=
  match os with
  | [] => st
  | o :: os' => execAll (fst (exec st o)) os'
  end.



(** What the spec calls 2xx and 4xx. *)
Definition is2xx (s : Z) : bool := (200 <=? s) && (s <=? 299).
Definition is4xx (s : Z) : bool := (400 <=? s) && (s <=? 499).
Definition is3xx (s : Z) : bool := (300 <=? s) && (s <=? 399).

(** The entry with a given id, if the queue holds one. *)
Definition findById (i : string) (q : list QueuedRequest) : option QueuedRequest :=
  find (fun item => String.eqb (id item) i) q.


(** The outcomes after which the loop body ends in [break]: the
    server-error branch and the [catch] branch. *)
Definition retryable (r : FetchResult) : bool :=
  match r with
  | Response s => negb (ok s) && (500 <=? s)
  | NetworkError => true
  end.

(** The traces of a sequence of operations, one per operation. *)
Fixpoint history (st : SyncStoreState) (os : list Op) : list (list Attempt) :=
  match os with
  | [] => []
  | o :: os' => snd (exec st o) :: history (fst (exec st o)) os'
  end.

(** What the server-error branch writes for [action] at loop index [i]. *)
Definition serverErrorUpdate (w : World) (i : nat) (action : QueuedRequest)
  : QueuedRequest :=
  applyUpdates action
    (mkUpdates (attempts action + 1)
               (new_date (clock w i))
               (date_now (clock w i) + backoffMs (attempts action + 1))).

(** A pass over a queue of entries with distinct ids, as a relation between
    the loop index, the part of the snapshot still to visit, the attempts
    made and what that part of the queue becomes.  [drainLoop] computes it
    (lemma [drainLoop_Pass] below). *)
Inductive Pass (w : World)
  : nat -> list QueuedRequest -> list Attempt -> list QueuedRequest -> Prop :=
| Pass_end i :
    Pass w i [] [] []
| Pass_remove i a rest tr q' s :
    fetch w i = Response s ->
    xorb (is2xx s) (is4xx s) = true ->
    Pass w (S i) rest tr q' ->
    Pass w i (a :: rest) (mkAttempt i a (Response s) :: tr) q'
| Pass_keep i a rest tr q' s :
    fetch w i = Response s ->
    s < 200 \/ 300 <= s < 400 ->
    Pass w (S i) rest tr q' ->
    Pass w i (a :: rest) (mkAttempt i a (Response s) :: tr) (a :: q')
| Pass_server i a rest s :
    fetch w i = Response s ->
    500 <= s ->
    Pass w i (a :: rest) [mkAttempt i a (Response s)]
         (serverErrorUpdate w i a :: rest)
| Pass_network i a rest :
    fetch w i = NetworkError ->
    Pass w i (a :: rest) [mkAttempt i a NetworkError] (a :: rest).


(** Among passes, the number of those whose first delivery got a response
    (as opposed to a network error). *)
Definition answered (ws : list World) : nat :=
  length (filter (fun w => match fetch w 0 with
                           | Response _ => true
                           | NetworkError => false
                           end) ws).

(** The attempt that a pass made on the entry [i], if it made one. *)
Definition attemptOn (i : string) (tr : list Attempt) : option Attempt :=
  find (fun x => String.eqb (id (att_action x)) i) tr.

(** In the pass that [w] drives from [st], the delivery of entry [i] fails
    in a retryable way. *)
Definition failsIn (i : string) (st : SyncStoreState) (w : World) : Prop :=
  exists x, attemptOn i (snd (processQueue w st)) = Some x /\
            retryable (att_result x) = true.

(** ... and so in every pass of a sequence of passes. *)
Fixpoint keepsFailing (i : string) (st : SyncStoreState) (ws : list World)
  : Prop :=
  match ws with
  | [] => True
  | w :: ws' => failsIn i st w /\ keepsFailing i (fst (processQueue w st)) ws'
  end.

(** Among the passes of a sequence, the number of those in which the
    delivery of entry [i] got a response (as opposed to a network error). *)
Fixpoint answeredFor (i : string) (st : SyncStoreState) (ws : list World) : nat :=
  match ws with
  | [] => 0
  | w :: ws' =>
      (match attemptOn i (snd (processQueue w st)) with
       | Some x => match att_result x with
                   | Response _ => 1
                   | NetworkError => 0
                   end
       | None => 0
       end + answeredFor i (fst (processQueue w st)) ws')%nat
  end.

(** In every pass of a sequence, the delivery of entry [i], if the pass
    gets to it, is answered with a 3xx status. *)
Fixpoint keepsRedirected (i : string) (st : SyncStoreState) (ws : list World)
  : Prop :=
  match ws with
  | [] => True
  | w :: ws' =>
      (forall x, attemptOn i (snd (processQueue w st)) = Some x ->
                 exists s, att_result x = Response s /\ is3xx s = true) /\
      keepsRedirected i (fst (processQueue w st)) ws'
  end.




End Outbox.

(* ================================================================== *)
(** ** The local-order statements of [BasketRepository]                *)
(* ================================================================== *)

Module BasketRepository.

(** [interface LocalOrderRow], the row shape of table [local_orders].
    [NULL]-able columns are options; timestamps are [Date.now()] values;
    amounts are JavaScript numbers. *)
Record LocalOrderRow := mkRow {
  id                     : string;
  platform_order_id      : option string;
  platform               : option string;
  items                  : string;
  subtotal               : Q;
  tax                    : Q;
  total                  : Q;
  discount_amount        : option Q;
  discount_code          : option string;
  customer_email         : option string;
  customer_name          : option string;
  note                   : option string;
  payment_method         : option string;
  payment_transaction_id : option string;
  cashier_id             : option string;
  cashier_name           : option string;
  status                 : string;
  sync_status            : string;
  sync_error             : option string;
  created_at             : Z;
  updated_at             : Z;
  paid_at                : option Z;
  synced_at              : option Z
}.

(** [interface CreateLocalOrderInput] *)
Record CreateLocalOrderInput := mkInput {
  in_id             : string;
  in_platform       : option string;
  in_items          : string;
  in_subtotal       : Q;
  in_tax            : Q;
  in_total          : Q;
  in_discountAmount : option Q;
  in_discountCode   : option string;
  in_customerEmail  : option string;
  in_customerName   : option string;
  in_note           : option string;
  in_cashierId      : option string;
  in_cashierName    : option string
}.

(** Table [local_orders], in row order. *)
Definition Table := list LocalOrderRow.

(** [UPDATE local_orders SET ... WHERE id = ?] *)
Definition updateWhereId (orderId : string) (f : LocalOrderRow -> LocalOrderRow)
           (t : Table) : Table :=
  map (fun r => if String.eqb (id r) orderId then f r else r) t.

(** [createLocalOrder]; [now] is its [Date.now()]. *)
Definition createLocalOrder (now : Z) (input : CreateLocalOrderInput) (t : Table)
  : Table :=
  (t ++ [mkRow (in_id input) None (in_platform input) (in_items input)
               (in_subtotal input) (in_tax input) (in_total input)
               (in_discountAmount input) (in_discountCode input)
               (in_customerEmail input) (in_customerName input) (in_note input)
               None None (in_cashierId input) (in_cashierName input)
               "pending" "pending" None now now None None])%list.

(** [findLocalOrderById] *)
Definition findLocalOrderById (orderId : string) (t : Table) : option LocalOrderRow :=
  find (fun r => String.eqb (id r) orderId) t.

(** [ORDER BY created_at ASC], as a stable insertion sort of the selected
    rows. *)
Fixpoint insertByCreatedAt (r : LocalOrderRow) (l : list LocalOrderRow)
  : list LocalOrderRow :=
  match l with
  | [] => [r]
  | x :: l' => if created_at r <? created_at x then r :: l
               else x :: insertByCreatedAt r l'
  end.

Fixpoint orderByCreatedAtAsc (l : list LocalOrderRow) : list LocalOrderRow :=
  match l with
  | [] => []
  | r :: l' => insertByCreatedAt r (orderByCreatedAtAsc l')
  end.

(** [WHERE status = ? AND sync_status != ?] with ['paid'], ['synced'] *)
Definition unsynced (r : LocalOrderRow) : bool :=
  String.eqb (status r) "paid" && negb (String.eqb (sync_status r) "synced").

(** [findUnsyncedOrders] *)
Definition findUnsyncedOrders (t : Table) : list LocalOrderRow :=
  orderByCreatedAtAsc (filter unsynced t).

(** [updateOrderStatus] *)
Definition updateOrderStatus (now : Z) (orderId status' : string) (t : Table)
  : Table :=
  updateWhereId orderId (fun r =>
    mkRow (id r) (platform_order_id r) (platform r) (items r)
          (subtotal r) (tax r) (total r) (discount_amount r) (discount_code r)
          (customer_email r) (customer_name r) (note r)
          (payment_method r) (payment_transaction_id r)
          (cashier_id r) (cashier_name r)
          status' (sync_status r) (sync_error r)
          (created_at r) now (paid_at r) (synced_at r)) t.

(** [updateOrderPayment] *)
Definition updateOrderPayment (now : Z) (orderId paymentMethod : string)
           (transactionId : option string) (t : Table) : Table :=
  updateWhereId orderId (fun r =>
    mkRow (id r) (platform_order_id r) (platform r) (items r)
          (subtotal r) (tax r) (total r) (discount_amount r) (discount_code r)
          (customer_email r) (customer_name r) (note r)
          (Some paymentMethod) transactionId
          (cashier_id r) (cashier_name r)
          "paid" (sync_status r) (sync_error r)
          (created_at r) now (Some now) (synced_at r)) t.

(** [updateOrderSyncSuccess] *)
Definition updateOrderSyncSuccess (now : Z) (orderId platformOrderId : string)
           (t : Table) : Table :=
  updateWhereId orderId (fun r =>
    mkRow (id r) (Some platformOrderId) (platform r) (items r)
          (subtotal r) (tax r) (total r) (discount_amount r) (discount_code r)
          (customer_email r) (customer_name r) (note r)
          (payment_method r) (payment_transaction_id r)
          (cashier_id r) (cashier_name r)
          (status r) "synced" (sync_error r)
          (created_at r) now (paid_at r) (Some now)) t.

(** [updateOrderSyncError] *)
Definition updateOrderSyncError (now : Z) (orderId syncStatus errorMessage : string)
           (t : Table) : Table :=
  updateWhereId orderId (fun r =>
    mkRow (id r) (platform_order_id r) (platform r) (items r)
          (subtotal r) (tax r) (total r) (discount_amount r) (discount_code r)
          (customer_email r) (customer_name r) (note r)
          (payment_method r) (payment_transaction_id r)
          (cashier_id r) (cashier_name r)
          (status r) syncStatus (Some errorMessage)
          (created_at r) now (paid_at r) (synced_at r)) t.

(** The order rows are compared by age. *)
Definition olderOrSame (a b : LocalOrderRow) : Prop := created_at a <= created_at b.

(** The statements above that write to the table. *)
Inductive Statement :=
| UpdateOrderStatus (now : Z) (orderId status' : string)
| UpdateOrderPayment (now : Z) (orderId paymentMethod : string)
                     (transactionId : option string)
| UpdateOrderSyncSuccess (now : Z) (orderId platformOrderId : string)
| UpdateOrderSyncError (now : Z) (orderId syncStatus errorMessage : string)
| CreateLocalOrder (now : Z) (input : CreateLocalOrderInput).

Definition execute (t : Table) (s : Statement) : Table :=
  match s with
  | UpdateOrderStatus now o st => updateOrderStatus now o st t
  | UpdateOrderPayment now o m tx => updateOrderPayment now o m tx t
  | UpdateOrderSyncSuccess now o p => updateOrderSyncSuccess now o p t
  | UpdateOrderSyncError now o ss e => updateOrderSyncError now o ss e t
  | CreateLocalOrder now input => createLocalOrder now input t
  end.

(** The order addressed by a statement. *)
Definition target (s : Statement) : string :=
  match s with
  | UpdateOrderStatus _ o _ => o
  | UpdateOrderPayment _ o _ _ => o
  | UpdateOrderSyncSuccess _ o _ => o
  | UpdateOrderSyncError _ o _ _ => o
  | CreateLocalOrder _ input => in_id input
  end.

(** The statements that write a sync column. *)
Definition writesSync (s : Statement) : bool :=
  match s with
  | UpdateOrderSyncSuccess _ _ _ | UpdateOrderSyncError _ _ _ _ => true
  | _ => false
  end.

(** The sync state of a row: [sync_status], [sync_error], [synced_at] and
    the remote identifier [platform_order_id]. *)
Definition syncState (r : LocalOrderRow)
  : string * option string * option Z * option string :=
  (sync_status r, sync_error r, synced_at r, platform_order_id r).

(** A sequence of statements, in order. *)
Definition executeAll (t : Table) (ss : list Statement) : Table :=
  fold_left execute ss t.

(** A statement that may reach the sync state of order [o]: it writes a
    sync column and is addressed to [o]. *)
Definition syncWriteTo (o : string) (s : Statement) : bool :=
  writesSync s && String.eqb (target s) o.

End BasketRepository.

(* ================================================================== *)
(** ** Sample inputs                                                   *)
(* ================================================================== *)

Module Samples.
Import SyncStore.

Definition sampleRequest : NewRequest :=
  mkNew "https://shop.example/api/orders" POST (Some "{}") None None None None None.

Definition gen (n : string) (t : Z) : Fresh :=
  mkFresh ("id" ++ n)%string ("req_" ++ n)%string t.

(** A request that carries a cap of one attempt. *)
Definition cappedRequest : NewRequest :=
  mkNew "https://shop.example/api/orders" POST (Some "{}") None (Some 1%nat)
        None None None.

(** A world in which every delivery gets the same answer at the same
    instant. *)
Definition always (r : FetchResult) (t : Z) : World :=
  mkWorld (fun _ => r) (fun _ => mkClock t t).

(** A queued entry [n] whose retry is due at [retryAt]. *)
Definition entry (n : string) (a : nat) (retryAt : option Z) : QueuedRequest :=
  mkRequest ("id" ++ n)%string "https://shop.example/api/orders" POST None None
            a None 0 None retryAt (Some ("req_" ++ n)%string).

(** A paid order [n] created at [t] with the given sync status. *)
Definition order (n : string) (t : Z) (syncStatus : string)
  : BasketRepository.LocalOrderRow :=
  BasketRepository.mkRow
    n None (Some "shopify") "[]" (Qmake 10 1) (Qmake 2 1) (Qmake 12 1)
    None None None None None (Some "cash") None None None
    "paid" syncStatus None t t (Some t) None.

(** A paid order that was synced at 100 as remote order [P1]. *)
Definition syncedOrder : BasketRepository.LocalOrderRow :=
  BasketRepository.mkRow
    "o1" (Some "P1") (Some "shopify") "[]" (Qmake 10 1) (Qmake 2 1) (Qmake 12 1)
    None None None None None (Some "cash") None None None
    "paid" "synced" None 50 100 (Some 60) (Some 100).

End Samples.

(* ================================================================== *)
(** ** More of the outbox queue and of its triggers                    *)
(* ================================================================== *)

Module QueueOps.
Import SyncStore QueueManager Outbox.

(** [addRequestToQueue]: the helper passes [url], [method], [body],
    [headers] and [requestId] and nothing else. *)
Definition addRequestToQueue (w : World) (g : Fresh)
           (url : string) (method : HttpMethod) (body : option string)
           (headers : option (list (string * string)))
           (requestId : option string) (st : SyncStoreState)
  : SyncStoreState * list Attempt :=
  addToQueue w g (mkNew url method body headers None None None requestId) st.

(** Two entries are the same request: they agree on everything but the
    three fields that [updateRequest] is given by [processQueue]. *)
Definition sameRequest (e e' : QueuedRequest) : Prop :=
  id e = id e' /\ url e = url e' /\ method e = method e' /\
  body e = body e' /\ headers e = headers e' /\
  maxAttempts e = maxAttempts e' /\ createdAt e = createdAt e' /\
  requestId e = requestId e'.

(** [q'] is what is left of [q]: some entries are gone, the others are the
    same requests in the same order, their counters not lower. *)
Inductive Survives : list QueuedRequest -> list QueuedRequest -> Prop :=
| Survives_nil : Survives [] []
| Survives_drop e q q' : Survives q q' -> Survives (e :: q) q'
| Survives_keep e e' q q' :
    sameRequest e e' -> (attempts e <= attempts e')%nat ->
    Survives q q' -> Survives (e :: q) (e' :: q').






(** The events that the store produces by itself: enqueues and the
    settling of its own [fetch] calls. *)
Definition enqueueDriven (e : Event) : bool :=
  match e with
  | Enqueue _ _ | FetchSettled _ _ _ => true
  | _ => false
  end.

(** A world that is offline at the first delivery. *)
Definition offline : World :=
  mkWorld (fun _ => NetworkError) (fun _ => mkClock 0 0).

End QueueOps.

(* ================================================================== *)
(** ** Role-based access: the second part of [src/stores/syncStore.ts] *)
(* ================================================================== *)

Module RoleAccess.

(** [UserRole]; its members are the keys of [TAB_ACCESS], a
    [Record<UserRole, TabName[]>]. *)
Inductive UserRole := admin | manager | cashier.

Inductive TabName := Order | Scan | Search | Inventory | More.

Inductive MoreMenuItem :=
| OrderHistory | Settings | Users | Returns | Printer | PaymentTerminal
| SyncQueue | Reports.

Definition TAB_ACCESS (role : UserRole) : list TabName :=
  match role with
  | admin => [Order; Scan; Search; Inventory; More]
  | manager => [Order; Scan; Search; Inventory; More]
  | cashier => [Order; Scan; Search; More]
  end.

Definition MORE_MENU_ACCESS (role : UserRole) : list MoreMenuItem :=
  match role with
  | admin => [OrderHistory; Settings; Users; Returns; Printer; PaymentTerminal;
              SyncQueue; Reports]
  | manager => [OrderHistory; Settings; Returns; Printer; PaymentTerminal;
                SyncQueue; Reports]
  | cashier => [OrderHistory; Printer; PaymentTerminal]
  end.

Definition TabName_eqb (a b : TabName) : bool :=
  match a, b with
  | Order, Order | Scan, Scan | Search, Search | Inventory, Inventory
  | More, More => true
  | _, _ => false
  end.

Definition MoreMenuItem_eqb (a b : MoreMenuItem) : bool :=
  match a, b with
  | OrderHistory, OrderHistory | Settings, Settings | Users, Users
  | Returns, Returns | Printer, Printer | PaymentTerminal, PaymentTerminal
  | SyncQueue, SyncQueue | Reports, Reports => true
  | _, _ => false
  end.

(** [role ?? 'cashier'] *)
Definition effectiveRole (role : option UserRole) : UserRole :=
  match role with
  | Some r => r
  | None => cashier
  end.

(** [canAccessTab]; [Array.prototype.includes] is [existsb]. *)
Definition canAccessTab (role : option UserRole) (tab : TabName) : bool :=
  existsb (TabName_eqb tab) (TAB_ACCESS (effectiveRole role)).

(** [canAccessMoreMenuItem] *)
Definition canAccessMoreMenuItem (role : option UserRole) (item : MoreMenuItem)
  : bool :=
  existsb (MoreMenuItem_eqb item) (MORE_MENU_ACCESS (effectiveRole role)).

End RoleAccess.

(* ================================================================== *)
(** ** More statements of [BasketRepository]                           *)
(* ================================================================== *)

Module LocalOrders.
Import BasketRepository.

(** [ORDER BY created_at DESC], as a stable insertion sort. *)
Fixpoint insertByCreatedAtDesc (r : LocalOrderRow) (l : list LocalOrderRow)
  : list LocalOrderRow :=
  match l with
  | [] => [r]
  | x :: l' => if created_at x <? created_at r then r :: l
               else x :: insertByCreatedAtDesc r l'
  end.

Fixpoint orderByCreatedAtDesc (l : list LocalOrderRow) : list LocalOrderRow :=
  match l with
  | [] => []
  | r :: l' => insertByCreatedAtDesc r (orderByCreatedAtDesc l')
  end.

(** [findLocalOrders]; [if (status)] holds for a string that is given and
    not empty. *)
Definition findLocalOrders (status' : option string) (t : Table)
  : list LocalOrderRow :=
  match status' with
  | Some s =>
      if String.eqb s "" then orderByCreatedAtDesc t
      else orderByCreatedAtDesc (filter (fun r => String.eqb (status r) s) t)
  | None => orderByCreatedAtDesc t
  end.

Definition newerOrSame (a b : LocalOrderRow) : Prop := created_at b <= created_at a.

(** The ids that the unsynced scan returns. *)
Definition scannedIds (t : Table) : list string := map id (findUnsyncedOrders t).

(** The columns that only [createLocalOrder] writes. *)
Definition orderContent (r : LocalOrderRow) :=
  (id r, platform r, items r, subtotal r, tax r, total r,
   (discount_amount r, discount_code r, customer_email r, customer_name r,
    note r, cashier_id r, cashier_name r, created_at r)).

(** The statements that update rows. *)
Definition isUpdate (s : Statement) : bool :=
  match s with
  | CreateLocalOrder _ _ => false
  | _ => true
  end.

End LocalOrders.

Module Baskets.

(** The rows of table [baskets]: [interface BasketRow] and the [status]
    column that the statements name. *)
Record BasketRow := mkBasket {
  id              : string;
  items           : string;
  subtotal        : Q;
  tax             : Q;
  total           : Q;
  discount_amount : option Q;
  discount_code   : option string;
  customer_email  : option string;
  customer_name   : option string;
  note            : option string;
  status          : string;
  created_at      : Z;
  updated_at      : Z
}.

(** [interface CreateBasketInput] *)
Record CreateBasketInput := mkCreate {
  c_id       : string;
  c_items    : string;
  c_subtotal : Q;
  c_tax      : Q;
  c_total    : Q
}.

(** [interface UpdateBasketInput] *)
Record UpdateBasketInput := mkUpdate {
  u_items          : string;
  u_subtotal       : Q;
  u_tax            : Q;
  u_total          : Q;
  u_discountAmount : option Q;
  u_discountCode   : option string;
  u_customerEmail  : option string;
  u_customerName   : option string;
  u_note           : option string
}.

Definition Table := list BasketRow.

Fixpoint insertByCreatedAtDesc (r : BasketRow) (l : list BasketRow)
  : list BasketRow :=
  match l with
  | [] => [r]
  | x :: l' => if created_at x <? created_at r then r :: l
               else x :: insertByCreatedAtDesc r l'
  end.

Fixpoint orderByCreatedAtDesc (l : list BasketRow) : list BasketRow :=
  match l with
  | [] => []
  | r :: l' => insertByCreatedAtDesc r (orderByCreatedAtDesc l')
  end.

Definition isActive (r : BasketRow) : bool := String.eqb (status r) "active".

(** The basket rows are compared by age. *)
Definition newerOrSame (a b : BasketRow) : Prop := created_at b <= created_at a.

(** [findActiveBasket]: [... WHERE status = 'active' ORDER BY created_at DESC
    LIMIT 1] *)
Definition findActiveBasket (t : Table) : option BasketRow :=
  hd_error (orderByCreatedAtDesc (filter isActive t)).

(** [createBasket] *)
Definition createBasket (now : Z) (input : CreateBasketInput) (t : Table) : Table :=
  (t ++ [mkBasket (c_id input) (c_items input) (c_subtotal input) (c_tax input)
                  (c_total input) None None None None None "active" now now])%list.

Definition updateWhereId (basketId : string) (f : BasketRow -> BasketRow)
           (t : Table) : Table :=
  map (fun r => if String.eqb (id r) basketId then f r else r) t.

(** [updateBasket] *)
Definition updateBasket (now : Z) (basketId : string) (input : UpdateBasketInput)
           (t : Table) : Table :=
  updateWhereId basketId (fun r =>
    mkBasket (id r) (u_items input) (u_subtotal input) (u_tax input)
             (u_total input) (u_discountAmount input) (u_discountCode input)
             (u_customerEmail input) (u_customerName input) (u_note input)
             (status r) (created_at r) now) t.

(** What [clearBasket] makes of a row. *)
Definition cleared (now : Z) (r : BasketRow) : BasketRow :=
  mkBasket (id r) "[]" (Qmake 0 1) (Qmake 0 1) (Qmake 0 1) None None
           (customer_email r) (customer_name r) (note r)
           (status r) (created_at r) now.

(** [clearBasket] *)
Definition clearBasket (now : Z) (basketId : string) (t : Table) : Table :=
  updateWhereId basketId (cleared now) t.

End Baskets.

(* ================================================================== *)
(** ** [KeyValueRepository]                                            *)
(* ================================================================== *)

Module KeyValueRepository.

(** The rows of table [key_value_store]. *)
Record Row := mkRow {
  key        : string;
  value      : string;
  created_at : Z;
  updated_at : Z
}.

Definition Table := list Row.

(** What a call gives: a result, or an exception. *)
Inductive Outcome (A : Type) :=
| Returned (a : A)
| Thrown.
Arguments Returned {A} a.
Arguments Thrown {A}.

(** [INSERT INTO key_value_store ... ON CONFLICT(key) DO UPDATE SET value = ?,
    updated_at = ?] *)
Definition upsert (now : Z) (k v : string) (t : Table) : Table :=
  if existsb (fun r => String.eqb (key r) k) t
  then map (fun r => if String.eqb (key r) k
                     then mkRow (key r) v (created_at r) now else r) t
  else (t ++ [mkRow k v now now])%list.

(** [getItem]: [result?.value ?? null] of the first row with the key. *)
Definition getItem (k : string) (t : Table) : option string :=
  option_map value (find (fun r => String.eqb (key r) k) t).

(** [removeItem] *)
Definition removeItem (k : string) (t : Table) : Table :=
  filter (fun r => negb (String.eqb (key r) k)) t.

(** [containsKey]: the count of the rows with the key is above 0. *)
Definition containsKey (k : string) (t : Table) : bool :=
  (0 <? length (filter (fun r => String.eqb (key r) k) t))%nat.

(** [clearAll] *)
Definition clearAll (t : Table) : Table := [].

(** [getAllKeys] *)
Definition getAllKeys (t : Table) : list string := map key t.

(** [multiSet]: one [now] for all items. *)
Definition multiSet (now : Z) (items : list (string * string)) (t : Table) : Table :=
  fold_left (fun t' kv => upsert now (fst kv) (snd kv) t') items t.

(** [multiGet] *)
Definition multiGet (keys : list string) (t : Table)
  : list (string * option string) :=
  map (fun k => (k, getItem k t)) keys.

Section Json.

(** JavaScript values that are not strings, [JSON.stringify] on them and
    [JSON.parse] ([None] when it throws). *)
Variable J : Type.
Variable stringify : J -> string.
Variable parse : string -> option J.

(** The argument of [setItem]: a string, or another value. *)
Inductive Value :=
| VString (s : string)
| VOther (j : J).

(** [typeof value === 'string' ? value : JSON.stringify(value)] *)
Definition stringValue (v : Value) : string :=
  match v with
  | VString s => s
  | VOther j => stringify j
  end.

(** [setItem] *)
Definition setItem (now : Z) (k : string) (v : Value) (t : Table) : Table :=
  upsert now k (stringValue v) t.

(** [setObject]: [setItem(key, JSON.stringify(value))] *)
Definition setObject (now : Z) (k : string) (j : J) (t : Table) : Table :=
  setItem now k (VString (stringify j)) t.

(** [getObject]: [null] for a missing or an empty value, else
    [JSON.parse(value)]. *)
Definition getObject (k : string) (t : Table) : Outcome (option J) :=
  match getItem k t with
  | None => Returned None
  | Some v =>
      if String.eqb v "" then Returned None
      else match parse v with
           | Some j => Returned (Some j)
           | None => Thrown
           end
  end.

End Json.

End KeyValueRepository.

(* ================================================================== *)
(** ** [src/services/printer/ReceiptConfigService.ts]                  *)
(* ================================================================== *)

Module ReceiptConfigService.

(** [ReceiptConfig['header']] *)
Record Header := mkHeader {
  businessName : string;
  addressLine1 : string;
  addressLine2 : string;
  phone        : string;
  email        : string;
  website      : string;
  taxId        : string;
  logoEnabled  : bool
}.

(** [ReceiptConfig['footer']] *)
Record Footer := mkFooter {
  line1           : string;
  line2           : string;
  line3           : string;
  showSocialMedia : bool;
  facebook        : string;
  instagram       : string;
  twitter         : string
}.

(** [58 | 80] *)
Inductive PaperWidth := W58 | W80.

Inductive FontSize := small | medium | large.

(** [ReceiptConfig['options']] *)
Record Options := mkOptions {
  paperWidth     : PaperWidth;
  fontSize       : FontSize;
  printLogo      : bool;
  printBarcode   : bool;
  printQRCode    : bool;
  cutPaper       : bool;
  openCashDrawer : bool;
  copies         : Z
}.

Inductive PrinterType := snbc_orient | epson | star | citizen | generic.

(** [ReceiptConfig['printerModel']]; [characterWidth] is a number of
    characters. *)
Record PrinterModel := mkModel {
  type               : PrinterType;
  characterWidth     : nat;
  supportsBold       : bool;
  supportsUnderline  : bool;
  supportsBarcode    : bool;
  supportsQRCode     : bool;
  supportsCut        : bool;
  supportsCashDrawer : bool
}.

(** [interface ReceiptConfig] *)
Record ReceiptConfig := mkConfig {
  header       : Header;
  footer       : Footer;
  options      : Options;
  printerModel : PrinterModel
}.

(** [Partial<ReceiptConfig>] *)
Record PartialConfig := mkPartialConfig {
  p_header       : option Header;
  p_footer       : option Footer;
  p_options      : option Options;
  p_printerModel : option PrinterModel
}.

(** [Partial<ReceiptConfig['options']>] *)
Record PartialOptions := mkPartialOptions {
  p_paperWidth     : option PaperWidth;
  p_fontSize       : option FontSize;
  p_printLogo      : option bool;
  p_printBarcode   : option bool;
  p_printQRCode    : option bool;
  p_cutPaper       : option bool;
  p_openCashDrawer : option bool;
  p_copies         : option Z
}.

Definition RECEIPT_CONFIG_KEY : string := "receipt_config".

Definition DEFAULT_RECEIPT_CONFIG : ReceiptConfig :=
  mkConfig
    (mkHeader "My Business" "" "" "" "" "" "" false)
    (mkFooter "Thank you for your purchase!" "Please come again" "" false "" "" "")
    (mkOptions W80 medium false true false true false 1)
    (mkModel generic 48 true true true true true true).

(** What [PRINTER_PRESETS[modelType]] is: one of the five presets, a
    property that the object inherits from [Object.prototype] (truthy, with
    nothing to spread), or [undefined]. *)
Inductive PresetLookup :=
| Preset (p : PrinterModel)
| Inherited
| Missing.

Definition objectPrototypeNames : list string :=
  ["constructor"; "__defineGetter__"; "__defineSetter__"; "hasOwnProperty";
   "__lookupGetter__"; "__lookupSetter__"; "isPrototypeOf";
   "propertyIsEnumerable"; "toString"; "valueOf"; "__proto__";
   "toLocaleString"].

(** [PRINTER_PRESETS]; every preset gives all the fields of the printer
    model. *)
Definition PRINTER_PRESETS (modelType : string) : PresetLookup :=
  if String.eqb modelType "snbc_orient"
  then Preset (mkModel snbc_orient 48 true true true true true true)
  else if String.eqb modelType "epson"
  then Preset (mkModel epson 48 true true true true true true)
  else if String.eqb modelType "star"
  then Preset (mkModel star 48 true true true true true true)
  else if String.eqb modelType "citizen"
  then Preset (mkModel citizen 42 true true true false true true)
  else if String.eqb modelType "generic"
  then Preset (mkModel generic 32 true false false false true false)
  else if existsb (String.eqb modelType) objectPrototypeNames
  then Inherited
  else Missing.

(** The service object.  [own] is [this.config] when that is an object of
    its own, and [None] while [this.config] is the object
    [DEFAULT_RECEIPT_CONFIG] itself ([defaults]), which the assignments to
    [this.config.options] and [this.config.printerModel] then change. *)
Record Service := mkService {
  defaults    : ReceiptConfig;
  own         : option ReceiptConfig;
  initialized : bool
}.

(** [new ReceiptConfigService()] *)
Definition newService : Service := mkService DEFAULT_RECEIPT_CONFIG None false.

(** [this.config] *)
Definition config (s : Service) : ReceiptConfig :=
  match own s with
  | Some c => c
  | None => defaults s
  end.

(** [getConfig] *)
Definition getConfig (s : Service) : ReceiptConfig := config s.

(** An assignment to a property of [this.config]. *)
Definition assign (f : ReceiptConfig -> ReceiptConfig) (s : Service) : Service :=
  match own s with
  | Some c => mkService (defaults s) (Some (f c)) (initialized s)
  | None => mkService (f (defaults s)) None (initialized s)
  end.

Definition orElse {A} (o : option A) (a : A) : A :=
  match o with
  | Some x => x
  | None => a
  end.

(** [{ ...this.config.options, ...options }] *)
Definition mergeOptions (o : Options) (p : PartialOptions) : Options :=
  mkOptions (orElse (p_paperWidth p) (paperWidth o))
            (orElse (p_fontSize p) (fontSize o))
            (orElse (p_printLogo p) (printLogo o))
            (orElse (p_printBarcode p) (printBarcode o))
            (orElse (p_printQRCode p) (printQRCode o))
            (orElse (p_cutPaper p) (cutPaper o))
            (orElse (p_openCashDrawer p) (openCashDrawer o))
            (orElse (p_copies p) (copies o)).

(** The object that [updateConfig] builds. *)
Definition mergeConfig (c : ReceiptConfig) (u : PartialConfig) : ReceiptConfig :=
  mkConfig (orElse (p_header u) (header c))
           (orElse (p_footer u) (footer c))
           (orElse (p_options u) (options c))
           (orElse (p_printerModel u) (printerModel c)).

(** [Math.floor(width * 0.67)] for a number of characters: the product in
    doubles lies above the exact one by less than a hundredth for every
    width below 2^31, so its floor is that of [67 * width / 100]. *)
Definition scaleTo58 (width : nat) : nat := (67 * width / 100)%nat.

(** The printer model that [setPrinterModel] assigns. *)
Definition presetModel (c : ReceiptConfig) (l : PresetLookup) : PrinterModel :=
  let m := match l with
           | Preset p => p
           | _ => printerModel c
           end in
  match paperWidth (options c) with
  | W58 => mkModel (type m) (scaleTo58 (characterWidth m)) (supportsBold m)
                   (supportsUnderline m) (supportsBarcode m) (supportsQRCode m)
                   (supportsCut m) (supportsCashDrawer m)
  | W80 => m
  end.

(** [getCharacterWidth] *)
Definition getCharacterWidth (s : Service) : nat :=
  let baseWidth := characterWidth (printerModel (config s)) in
  match paperWidth (options (config s)) with
  | W58 => scaleTo58 baseWidth
  | W80 => baseWidth
  end.

(** [String.prototype.repeat] *)
Fixpoint repeatString (s : string) (count : nat) : string :=
  match count with
  | O => ""
  | S n => (s ++ repeatString s n)%string
  end.

(** [getDividerLine] *)
Definition getDividerLine (s : Service) : string :=
  repeatString "-" (getCharacterWidth s).

(** [getDoubleDividerLine] *)
Definition getDoubleDividerLine (s : Service) : string :=
  repeatString "=" (getCharacterWidth s).

(** [text.substring(0, end)]: a negative [end] counts as 0. *)
Definition substringTo (text : string) (fin : Z) : string :=
  substring 0 (Z.to_nat fin) text.

(** [formatLine] *)
Definition formatLine (s : Service) (left right : string) : string :=
  let width := Z.of_nat (getCharacterWidth s) in
  let maxLeftWidth := width - Z.of_nat (String.length right) - 1 in
  let truncatedLeft :=
    if maxLeftWidth <? Z.of_nat (String.length left)
    then (substringTo left (maxLeftWidth - 3) ++ "...")%string
    else left in
  let padding :=
    width - Z.of_nat (String.length truncatedLeft)
    - Z.of_nat (String.length right) in
  (truncatedLeft ++ repeatString " " (Z.to_nat (Z.max 1 padding)) ++ right)%string.

(** [centerText] *)
Definition centerText (s : Service) (text : string) : string :=
  let width := getCharacterWidth s in
  if (width <=? String.length text)%nat then substring 0 width text
  else let padding := ((width - String.length text) / 2)%nat in
       (repeatString " " padding ++ text)%string.

(** [rightAlign] *)
Definition rightAlign (s : Service) (text : string) : string :=
  let width := getCharacterWidth s in
  if (width <=? String.length text)%nat then substring 0 width text
  else let padding := (width - String.length text)%nat in
       (repeatString " " padding ++ text)%string.

Section Persistence.

(** [JSON.stringify] and [JSON.parse] on receipt configs. *)
Variable stringify : ReceiptConfig -> string.
Variable parse : string -> option ReceiptConfig.

Definition State : Type := (Service * KeyValueRepository.Table)%type.

(** [keyValueRepository.setObject(RECEIPT_CONFIG_KEY, this.config)] *)
Definition save (now : Z) (st : State) : State :=
  (fst st,
   KeyValueRepository.setObject ReceiptConfig stringify now RECEIPT_CONFIG_KEY
                                (config (fst st)) (snd st)).

(** [initialize]; a saved config has the four parts, so the spread over the
    defaults is the saved config. *)
Definition initialize (st : State) : State :=
  let s := fst st in
  if initialized s then st
  else match KeyValueRepository.getObject ReceiptConfig parse RECEIPT_CONFIG_KEY
                                          (snd st) with
       | KeyValueRepository.Returned (Some savedConfig) =>
           (mkService (defaults s) (Some savedConfig) true, snd st)
       | KeyValueRepository.Returned None =>
           (mkService (defaults s) (own s) true, snd st)
       | KeyValueRepository.Thrown =>
           (mkService (defaults s) None true, snd st)
       end.

(** [updateConfig] *)
Definition updateConfig (now : Z) (updates : PartialConfig) (st : State) : State :=
  let s := fst st in
  save now (mkService (defaults s) (Some (mergeConfig (config s) updates))
                      (initialized s),
            snd st).

(** [updateOptions] *)
Definition updateOptions (now : Z) (o : PartialOptions) (st : State) : State :=
  save now (assign (fun c => mkConfig (header c) (footer c)
                                      (mergeOptions (options c) o)
                                      (printerModel c)) (fst st),
            snd st).

(** [setPrinterModel] *)
Definition setPrinterModel (now : Z) (modelType : string) (st : State) : State :=
  match PRINTER_PRESETS modelType with
  | Missing => st
  | l => save now (assign (fun c => mkConfig (header c) (footer c) (options c)
                                             (presetModel c l)) (fst st),
                   snd st)
  end.

(** The calls that change the config. *)
Inductive Call :=
| UpdateConfig (now : Z) (updates : PartialConfig)
| UpdateOptions (now : Z) (o : PartialOptions)
| SetPrinterModel (now : Z) (modelType : string).

Definition call (c : Call) (st : State) : State :=
  match c with
  | UpdateConfig now updates => updateConfig now updates st
  | UpdateOptions now o => updateOptions now o st
  | SetPrinterModel now modelType => setPrinterModel now modelType st
  end.

(** The calls that reach [setObject]. *)
Definition saves (c : Call) : bool :=
  match c with
  | SetPrinterModel _ modelType =>
      match PRINTER_PRESETS modelType with
      | Missing => false
      | _ => true
      end
  | _ => true
  end.

End Persistence.

(** A service on 58 mm paper. *)
Definition narrowService : Service :=
  mkService DEFAULT_RECEIPT_CONFIG
            (Some (mkConfig (header DEFAULT_RECEIPT_CONFIG)
                            (footer DEFAULT_RECEIPT_CONFIG)
                            (mkOptions W58 medium false true false true false 1)
                            (printerModel DEFAULT_RECEIPT_CONFIG)))
            true.

End ReceiptConfigService.

(* ================================================================== *)
(** ** [src/services/returns/ReturnService.ts]: [getReturnableItems]   *)
(* ================================================================== *)

(** The columns of a row of the returns that [getReturnableItems] reads. *)
Module ReturnRepository.

Record ReturnRow := mkReturnRow {
  order_item_id : option string;
  product_id    : string;
  quantity      : Z;
  status        : string
}.

End ReturnRepository.

(** The columns of a row of the order items that [getReturnableItems]
    reads; quantities are whole numbers. *)
Module OrderItemRepository.

Record OrderItemRow := mkOrderItemRow {
  id         : string;
  product_id : string;
  variant_id : option string;
  name       : string;
  price      : Q;
  quantity   : Z
}.

End OrderItemRepository.

Module ReturnService.

(** The objects that [getReturnableItems] gives. *)
Record ReturnableItem := mkReturnableItem {
  orderItemId        : string;
  productId          : string;
  variantId          : option string;
  name               : string;
  price              : Q;
  originalQuantity   : Z;
  returnedQuantity   : Z;
  returnableQuantity : Z
}.

(** [Map<string, number>], its entries in the order of insertion. *)
Definition NumberMap := list (string * Z).

(** [Map.prototype.get] *)
Fixpoint mapGet (k : string) (m : NumberMap) : option Z :=
  match m with
  | [] => None
  | (k', v) :: m' => if String.eqb k' k then Some v else mapGet k m'
  end.

(** [Map.prototype.set] *)
Fixpoint mapSet (k : string) (v : Z) (m : NumberMap) : NumberMap :=
  match m with
  | [] => [(k, v)]
  | (k', v') :: m' =>
      if String.eqb k' k then (k', v) :: m' else (k', v') :: mapSet k v m'
  end.

(** [x || 0] for [x : number | undefined] *)
Definition orZero (x : option Z) : Z :=
  match x with
  | Some v => v
  | None => 0
  end.

(** [ret.order_item_id || ret.product_id]: [null] and the empty string give
    the product id. *)
Definition returnKey (ret : ReturnRepository.ReturnRow) : string :=
  match ReturnRepository.order_item_id ret with
  | Some s => if String.eqb s "" then ReturnRepository.product_id ret else s
  | None => ReturnRepository.product_id ret
  end.

(** [ret.status === 'completed' || ret.status === 'approved'] *)
Definition counted (ret : ReturnRepository.ReturnRow) : bool :=
  String.eqb (ReturnRepository.status ret) "completed"
  || String.eqb (ReturnRepository.status ret) "approved".

(** The loop that sums up the returned quantities per key. *)
Definition returnedMap (existingReturns : list ReturnRepository.ReturnRow)
  : NumberMap :=
  fold_left
    (fun m ret =>
       if counted ret
       then let key := returnKey ret in
            mapSet key (orZero (mapGet key m) + ReturnRepository.quantity ret) m
       else m)
    existingReturns [].

(** [getReturnableItems], from the order items and the returns of the
    order. *)
Definition getReturnableItems
           (orderItems : list OrderItemRepository.OrderItemRow)
           (existingReturns : list ReturnRepository.ReturnRow)
  : list ReturnableItem :=
  let returned := returnedMap existingReturns in
  filter
    (fun item => 0 <? returnableQuantity item)
    (map
       (fun item =>
          let key := OrderItemRepository.id item in
          let returnedQty := orZero (mapGet key returned) in
          mkReturnableItem
            (OrderItemRepository.id item)
            (OrderItemRepository.product_id item)
            (OrderItemRepository.variant_id item)
            (OrderItemRepository.name item)
            (OrderItemRepository.price item)
            (OrderItemRepository.quantity item)
            returnedQty
            (Z.max 0 (OrderItemRepository.quantity item - returnedQty)))
       orderItems).

(** The quantity of the completed and approved returns recorded under a
    key. *)
Definition returnedFor (key : string)
           (existingReturns : list ReturnRepository.ReturnRow) : Z :=
  fold_right Z.add 0
    (map ReturnRepository.quantity
         (filter (fun ret => counted ret && String.eqb (returnKey ret) key)
                 existingReturns)).

(** The returnable item of an order item of which [returnedQty] is
    returned. *)
Definition returnable (returnedQty : Z) (item : OrderItemRepository.OrderItemRow)
  : ReturnableItem :=
  mkReturnableItem
    (OrderItemRepository.id item)
    (OrderItemRepository.product_id item)
    (OrderItemRepository.variant_id item)
    (OrderItemRepository.name item)
    (OrderItemRepository.price item)
    (OrderItemRepository.quantity item)
    returnedQty
    (OrderItemRepository.quantity item - returnedQty).

End ReturnService.

(* ================================================================== *)
(** ** Properties of the outbox queue                                  *)
(* ================================================================== *)

Import SyncStore Outbox.

(** Case analysis on every status comparison in sight. *)
Ltac leb_cases :=
  repeat match goal with
         | H : context [Z.leb ?a ?b] |- _ => destruct (Z.leb_spec a b)
         | |- context [Z.leb ?a ?b] => destruct (Z.leb_spec a b)
         end;
  simpl in *; try discriminate; try lia; auto.

(** *** Filtering and updating by id *)

Lemma removeById_absent (i : string) (q : list QueuedRequest) :
  ~ In i (map id q) -> removeById i q = q.
Proof.
  induction q as [|x q IH]; simpl; intros H; [reflexivity|].
  destruct (String.eqb_spec (id x) i) as [E|E]; simpl.
  - exfalso. apply H. now left.
  - f_equal. apply IH. intros Hin. apply H. now right.
Qed.

Lemma removeById_middle (done rest : list QueuedRequest) (a : QueuedRequest) :
  NoDup (map id (done ++ a :: rest)) ->
  removeById (id a) (done ++ a :: rest) = (done ++ rest)%list.
Proof.
  intros H. unfold removeById. rewrite filter_app. simpl.
  rewrite String.eqb_refl. simpl.
  rewrite map_app in H. simpl in H.
  pose proof (NoDup_remove_2 _ _ _ H) as Hn.
  fold (removeById (id a) done). fold (removeById (id a) rest).
  rewrite !removeById_absent; [reflexivity| |];
    intros Hin; apply Hn; apply in_or_app; auto.
Qed.

Lemma update_absent (i : string) (u : Updates) (q : list QueuedRequest) :
  ~ In i (map id q) ->
  map (fun item => if String.eqb (id item) i then applyUpdates item u else item) q = q.
Proof.
  induction q as [|x q IH]; simpl; intros H; [reflexivity|].
  destruct (String.eqb_spec (id x) i) as [E|E].
  - exfalso. apply H. now left.
  - f_equal. apply IH. intros Hin. apply H. now right.
Qed.

Lemma update_middle (done rest : list QueuedRequest) (a : QueuedRequest) (u : Updates) :
  NoDup (map id (done ++ a :: rest)) ->
  map (fun item => if String.eqb (id item) (id a) then applyUpdates item u else item)
      (done ++ a :: rest)
  = (done ++ applyUpdates a u :: rest)%list.
Proof.
  intros H. rewrite map_app. simpl. rewrite String.eqb_refl.
  rewrite map_app in H. simpl in H.
  pose proof (NoDup_remove_2 _ _ _ H) as Hn.
  rewrite !update_absent; [reflexivity| |];
    intros Hin; apply Hn; apply in_or_app; auto.
Qed.

(** *** The loop body *)

Lemma handleResult_continue c a r st :
  snd (handleResult c a r st) = negb (retryable r).
Proof.
  destruct r as [s|]; simpl; [|reflexivity].
  destruct (ok s); simpl; [reflexivity|].
  destruct (500 <=? s); simpl; [reflexivity|].
  destruct (400 <=? s); reflexivity.
Qed.

Lemma handleResult_isProcessing c a r st :
  isProcessing (fst (handleResult c a r st)) = isProcessing st.
Proof.
  destruct r as [s|]; simpl; [|reflexivity].
  destruct (ok s); simpl; [reflexivity|].
  destruct (500 <=? s); simpl; [reflexivity|].
  destruct (400 <=? s); reflexivity.
Qed.

(** *** One pass, whatever the ids *)

Lemma drainLoop_cons w a rest i st :
  drainLoop w (a :: rest) i st =
  let st1 := fst (handleResult (clock w i) a (fetch w i) st) in
  if retryable (fetch w i)
  then (st1, [mkAttempt i a (fetch w i)])
  else (fst (drainLoop w rest (S i) st1),
        mkAttempt i a (fetch w i) :: snd (drainLoop w rest (S i) st1)).
Proof.
  simpl.
  pose proof (handleResult_continue (clock w i) a (fetch w i) st) as Hc.
  destruct (handleResult (clock w i) a (fetch w i) st) as [st1 cont].
  simpl in *. subst cont.
  destruct (retryable (fetch w i)); simpl; [reflexivity|].
  destruct (drainLoop w rest (S i) st1); reflexivity.
Qed.

(** The attempts of a pass are the entries of the snapshot, from its first
    one on, without a gap, and a retryable outcome ends the pass. *)
Lemma drainLoop_trace w acts : forall i st j a,
  nth_error (snd (drainLoop w acts i st)) j = Some a ->
  att_index a = (i + j)%nat /\
  nth_error acts j = Some (att_action a) /\
  att_result a = fetch w (i + j) /\
  (retryable (att_result a) = true ->
   length (snd (drainLoop w acts i st)) = S j) /\
  (retryable (att_result a) = false ->
   (S j < length acts)%nat ->
   (S j < length (snd (drainLoop w acts i st)))%nat).
Proof.
  induction acts as [|x rest IH]; intros i st j a H.
  - destruct j; discriminate.
  - rewrite drainLoop_cons in *. cbv zeta in *.
    destruct (retryable (fetch w i)) eqn:R; simpl in *.
    + destruct j as [|j]; simpl in H.
      * injection H as <-. simpl. rewrite Nat.add_0_r.
        repeat split; auto. intros E. congruence.
      * destruct j; discriminate.
    + destruct j as [|j]; simpl in H.
      * injection H as <-. simpl. rewrite Nat.add_0_r.
        repeat split; auto; try congruence.
        intros _ Hlen. destruct rest as [|y rest']; simpl in Hlen; [lia|].
        rewrite drainLoop_cons. cbv zeta.
        destruct (retryable (fetch w (S i))); simpl; lia.
      * destruct (IH (S i) _ j a H) as (H1 & H2 & H3 & H4 & H5).
        rewrite Nat.add_succ_r. simpl in H1, H3.
        split; [exact H1|]. split; [exact H2|]. split; [exact H3|]. split.
        -- intros E. now rewrite (H4 E).
        -- intros E Hlen. apply -> Nat.succ_lt_mono. apply H5; auto. lia.
Qed.

Lemma drainLoop_trace_length w acts : forall i st,
  (length (snd (drainLoop w acts i st)) <= length acts)%nat.
Proof.
  induction acts as [|x rest IH]; intros i st; [simpl; lia|].
  rewrite drainLoop_cons. cbv zeta.
  destruct (retryable (fetch w i)); simpl; [lia|].
  specialize (IH (S i) (fst (handleResult (clock w i) x (fetch w i) st))). lia.
Qed.

Lemma drainLoop_trace_nonempty w a rest i st :
  snd (drainLoop w (a :: rest) i st) <> [].
Proof.
  rewrite drainLoop_cons. cbv zeta.
  destruct (retryable (fetch w i)); simpl; discriminate.
Qed.

Lemma processQueue_trace w st :
  snd (processQueue w st) =
  snd (drainLoop w (queue st) 0 (set_isProcessing true st)).
Proof.
  unfold processQueue. destruct (queue st) as [|a rest] eqn:E; [reflexivity|].
  destruct (drainLoop w (a :: rest) 0 (set_isProcessing true st)); reflexivity.
Qed.

Lemma processQueue_isProcessing w st :
  isProcessing (fst (processQueue w st)) = false.
Proof.
  unfold processQueue. destruct (queue st) as [|a rest] eqn:E; [reflexivity|].
  destruct (drainLoop w (a :: rest) 0 (set_isProcessing true st)); reflexivity.
Qed.

(** *** One pass over distinct ids *)

Lemma status_classes (s : Z) :
  (ok s = true -> xorb (is2xx s) (is4xx s) = true) /\
  (ok s = false -> (500 <=? s) = false -> (400 <=? s) = true ->
   xorb (is2xx s) (is4xx s) = true) /\
  (ok s = false -> (500 <=? s) = false -> (400 <=? s) = false ->
   s < 200 \/ 300 <= s < 400).
Proof.
  unfold ok, is2xx, is4xx. repeat split; intros; leb_cases.
Qed.

Lemma drainLoop_Pass w acts : forall done extra i b,
  NoDup (map id (done ++ acts ++ extra)) ->
  exists q',
    Pass w i acts
         (snd (drainLoop w acts i (mkStore (done ++ acts ++ extra) b))) q' /\
    fst (drainLoop w acts i (mkStore (done ++ acts ++ extra) b))
    = mkStore (done ++ q' ++ extra) b.
Proof.
  induction acts as [|a rest IH]; intros done extra i b ND.
  - exists []. simpl. split; [constructor|reflexivity].
  - change (done ++ (a :: rest) ++ extra)%list
      with (done ++ a :: (rest ++ extra))%list in *.
    assert (ND' : NoDup (map id (done ++ rest ++ extra))).
    { rewrite map_app in *. simpl in ND. now apply NoDup_remove_1 in ND. }
    assert (ND'' : NoDup (map id ((done ++ [a]) ++ rest ++ extra))).
    { now rewrite <- app_assoc. }
    simpl drainLoop. unfold handleResult.
    destruct (fetch w i) as [s|] eqn:F.
    + destruct (status_classes s) as (C1 & C2 & C3).
      destruct (ok s) eqn:Ok.
      * unfold set_queue. simpl queue. rewrite (removeById_middle _ _ _ ND).
        simpl isProcessing.
        destruct (IH done extra (S i) b ND') as (q' & P & E).
        destruct (drainLoop w rest (S i) (mkStore (done ++ rest ++ extra) b))
          as [st2 tr].
        simpl in *. exists q'. split; [|exact E].
        eapply Pass_remove; eauto.
      * destruct (500 <=? s) eqn:S5.
        -- unfold updateRequest, set_queue. simpl queue.
           rewrite (update_middle _ _ _ _ ND). simpl.
           exists (serverErrorUpdate w i a :: rest). split; [|reflexivity].
           apply Pass_server; [exact F|]. now apply Z.leb_le.
        -- destruct (400 <=? s) eqn:S4.
           ++ unfold set_queue. simpl queue. rewrite (removeById_middle _ _ _ ND).
              simpl isProcessing.
              destruct (IH done extra (S i) b ND') as (q' & P & E).
              destruct (drainLoop w rest (S i)
                          (mkStore (done ++ rest ++ extra) b)) as [st2 tr].
              simpl in *. exists q'. split; [|exact E].
              eapply Pass_remove; eauto.
           ++ destruct (IH (done ++ [a])%list extra (S i) b ND'')
                as (q' & P & E).
              rewrite <- app_assoc in P, E. simpl in P, E.
              destruct (drainLoop w rest (S i)
                          (mkStore (done ++ a :: rest ++ extra) b)) as [st2 tr].
              simpl in *. exists (a :: q'). split.
              ** eapply Pass_keep; eauto.
              ** rewrite E. now rewrite <- app_assoc.
    + simpl. exists (a :: rest). split; [|reflexivity].
      now apply Pass_network.
Qed.

Lemma processQueue_Pass w st :
  NoDup (map id (queue st)) ->
  exists q',
    Pass w 0 (queue st) (snd (processQueue w st)) q' /\
    fst (processQueue w st) = mkStore q' false.
Proof.
  intros ND. unfold processQueue.
  destruct st as [q b]. simpl in *.
  destruct q as [|a rest].
  - exists []. split; [constructor|reflexivity].
  - assert (ND0 : NoDup (map id ([] ++ (a :: rest) ++ []))).
    { simpl. now rewrite app_nil_r. }
    destruct (drainLoop_Pass w (a :: rest) [] [] 0 true ND0) as (q' & P & E).
    simpl app in P, E. rewrite !app_nil_r in P, E.
    unfold set_isProcessing. simpl queue.
    destruct (drainLoop w (a :: rest) 0 (mkStore (a :: rest) true)) as [st' tr].
    simpl in *. subst st'. exists q'. split; [exact P|].
    simpl. now rewrite ?app_nil_r.
Qed.

Lemma Pass_attempts w i acts tr q' :
  Pass w i acts tr q' ->
  forall x, In x tr -> In (att_action x) acts.
Proof.
  induction 1; intros x Hx; simpl in *.
  - contradiction.
  - destruct Hx as [<-|Hx]; simpl; auto.
  - destruct Hx as [<-|Hx]; simpl; auto.
  - destruct Hx as [<-|[]]; simpl; auto.
  - destruct Hx as [<-|[]]; simpl; auto.
Qed.

Lemma Pass_ids w i acts tr q' :
  Pass w i acts tr q' ->
  forall x, In x (map id q') -> In x (map id acts).
Proof.
  induction 1; intros x Hx; simpl in *; auto.
  destruct Hx as [Hx|Hx]; auto.
Qed.

Lemma Pass_NoDup w i acts tr q' :
  Pass w i acts tr q' ->
  NoDup (map id acts) -> NoDup (map id q').
Proof.
  induction 1; intros ND; simpl in *; auto.
  - inversion ND; auto.
  - inversion ND as [|? ? Hn ND']; subst. constructor; auto.
    intros Hin. apply Hn. eapply Pass_ids; eauto.
Qed.

(** An entry that no attempt of the pass touched is still there. *)
Lemma Pass_untouched w i acts tr q' :
  Pass w i acts tr q' ->
  forall e, In e acts ->
  (forall x, In x tr -> att_action x <> e) ->
  In e q'.
Proof.
  induction 1; intros e He Hx; simpl in *.
  - contradiction.
  - destruct He as [->|He].
    + exfalso. eapply Hx; [left; reflexivity|reflexivity].
    + apply IHPass; auto.
  - destruct He as [->|He]; auto.
  - destruct He as [->|He]; auto.
    exfalso. eapply Hx; [left; reflexivity|reflexivity].
  - exact He.
Qed.

(** An entry whose attempt was answered below 200 or with a 3xx status is
    still there, as it was. *)
Lemma Pass_kept w i acts tr q' :
  Pass w i acts tr q' ->
  forall x s, In x tr -> att_result x = Response s ->
  s < 200 \/ 300 <= s < 400 ->
  In (att_action x) q'.
Proof.
  induction 1; intros x s0 Hx Hr Hs; simpl in *.
  - contradiction.
  - destruct Hx as [<-|Hx]; simpl in *; [|eauto].
    injection Hr as ->. exfalso. revert H0. unfold is2xx, is4xx. leb_cases.
  - destruct Hx as [<-|Hx]; simpl in *; eauto.
  - destruct Hx as [<-|[]]; simpl in *. injection Hr as ->. lia.
  - destruct Hx as [<-|[]]; simpl in *. discriminate.
Qed.



Lemma acknowledged_not_retryable (s : Z) :
  xorb (is2xx s) (is4xx s) = true -> retryable (Response s) = false.
Proof. unfold is2xx, is4xx, retryable, ok. intros H. leb_cases. Qed.

Lemma kept_not_retryable (s : Z) :
  s < 200 \/ 300 <= s < 400 -> retryable (Response s) = false.
Proof. unfold retryable, ok. intros H. leb_cases. Qed.

Lemma retryable_spec (r : FetchResult) :
  retryable r = true <->
  (exists s, r = Response s /\ 500 <= s) \/ r = NetworkError.
Proof.
  destruct r as [s|]; simpl; [|split; auto].
  unfold ok. split.
  - intros H. left. exists s. split; [reflexivity|]. leb_cases.
  - intros [(s' & E & H)|E]; [|discriminate]. injection E as <-. leb_cases.
Qed.

(** What a retryable outcome leaves of the entry it was given for. *)
Lemma Pass_stop w i acts tr q' :
  Pass w i acts tr q' ->
  forall x, In x tr -> retryable (att_result x) = true ->
  exists pre post kept,
    acts = (pre ++ att_action x :: post)%list /\
    att_index x = (i + length pre)%nat /\
    incl kept pre /\
    q' = (kept ++ match att_result x with
                  | Response _ => serverErrorUpdate w (att_index x) (att_action x)
                  | NetworkError => att_action x
                  end :: post)%list.
Proof.
  induction 1; intros x Hx Hr; simpl in Hx.
  - contradiction.
  - destruct Hx as [<-|Hx]; cbn [att_result att_action att_index] in *.
    + rewrite (acknowledged_not_retryable _ H0) in Hr. discriminate.
    + destruct (IHPass x Hx Hr) as (pre & post & kept & E1 & E2 & E3 & E4).
      exists (a :: pre), post, kept. simpl. subst rest.
      repeat split; auto; [lia|]. now apply incl_tl.
  - destruct Hx as [<-|Hx]; cbn [att_result att_action att_index] in *.
    + rewrite (kept_not_retryable _ H0) in Hr. discriminate.
    + destruct (IHPass x Hx Hr) as (pre & post & kept & E1 & E2 & E3 & E4).
      exists (a :: pre), post, (a :: kept). simpl. subst rest q'.
      repeat split; auto; [lia|].
      intros y [<-|Hy]; [now left|right; auto].
  - destruct Hx as [<-|[]]; cbn [att_result att_action att_index] in *.
    exists [], rest, []. simpl. rewrite Nat.add_0_r.
    repeat split; auto. intros y [].
  - destruct Hx as [<-|[]]; cbn [att_result att_action att_index] in *.
    exists [], rest, []. simpl. rewrite Nat.add_0_r.
    repeat split; auto. intros y [].
Qed.

(** After a retryable outcome nothing else is attempted. *)
Lemma processQueue_last w st x :
  In x (snd (processQueue w st)) ->
  retryable (att_result x) = true ->
  forall y, In y (snd (processQueue w st)) -> (att_index y <= att_index x)%nat.
Proof.
  rewrite processQueue_trace. intros Hx Hr y Hy.
  destruct (In_nth_error _ _ Hx) as (j & Hj).
  destruct (In_nth_error _ _ Hy) as (k & Hk).
  destruct (drainLoop_trace _ _ _ _ _ _ Hj) as (I1 & _ & _ & L & _).
  destruct (drainLoop_trace _ _ _ _ _ _ Hk) as (I2 & _).
  specialize (L Hr).
  assert (k < S j)%nat.
  { rewrite <- L. apply nth_error_Some. congruence. }
  simpl in *. lia.
Qed.

(** *** C1 *)

(** C1, as the code has it.  In a queue of distinct ids, an entry whose
    delivery is answered with a status of 500 or more is updated where it
    stands: [attempts] grows by one, [nextRetryAt] becomes [Date.now()] plus
    [min(30000 * 2^(attempts-1), 300000)], [lastAttemptAt] becomes the
    current date, every other field and every later entry is as before.  An
    entry whose delivery fails with a network error is left as it was.  In
    both cases no later entry is attempted in the pass. *)
Theorem retryable_failure_effect (w : World) (st : SyncStoreState) (x : Attempt) :
  NoDup (map id (queue st)) ->
  In x (snd (processQueue w st)) ->
  (exists s, att_result x = Response s /\ 500 <= s) \/
  att_result x = NetworkError ->
  exists pre post kept e',
    queue st = (pre ++ att_action x :: post)%list /\
    length pre = att_index x /\
    queue (fst (processQueue w st)) = (kept ++ e' :: post)%list /\
    incl kept pre /\
    (forall y, In y (snd (processQueue w st)) -> (att_index y <= att_index x)%nat) /\
    match att_result x with
    | Response _ =>
        attempts e' = (attempts (att_action x) + 1)%nat /\
        nextRetryAt e' =
          Some (date_now (clock w (att_index x))
                + Z.min (30000 * 2 ^ (Z.of_nat (attempts e') - 1)) 300000) /\
        lastAttemptAt e' = Some (new_date (clock w (att_index x))) /\
        id e' = id (att_action x) /\
        url e' = url (att_action x) /\
        method e' = method (att_action x) /\
        body e' = body (att_action x) /\
        headers e' = headers (att_action x) /\
        maxAttempts e' = maxAttempts (att_action x) /\
        createdAt e' = createdAt (att_action x) /\
        requestId e' = requestId (att_action x)
    | NetworkError => e' = att_action x
    end.
Proof.
  intros ND Hx Hr. apply retryable_spec in Hr.
  destruct (processQueue_Pass w st ND) as (q' & P & E).
  destruct (Pass_stop _ _ _ _ _ P x Hx Hr) as (pre & post & kept & E1 & E2 & E3 & E4).
  exists pre, post, kept.
  eexists. rewrite E. simpl queue.
  split; [exact E1|]. split; [simpl in E2; now rewrite E2|].
  split; [exact E4|]. split; [exact E3|].
  split; [now apply processQueue_last|].
  destruct (att_result x); [|reflexivity].
  simpl. repeat split; reflexivity.
Qed.

(** A pass over one entry with a 503 answer. *)
Lemma retryable_failure_effect_witness :
  let e := Samples.entry "1" 0 None in
  let w := Samples.always (Response 503) 1000 in
  exists e', queue (fst (processQueue w (mkStore [e] false))) = [e'] /\
             attempts e' = 1%nat /\ nextRetryAt e' = Some 31000.
Proof.
  intros e w.
  destruct (retryable_failure_effect w (mkStore [e] false)
              (mkAttempt 0 e (Response 503)))
    as (pre & post & kept & e' & E1 & E2 & E3 & E4 & E5 & E6 & E7 & E8).
  - simpl. constructor; [intros []|constructor].
  - simpl. now left.
  - left. exists 503. split; [reflexivity|lia].
  - simpl in *. destruct pre; [|discriminate].
    injection E1 as <-. destruct kept as [|k kept]; [|destruct (E4 k); now left].
    exists e'. split; [exact E3|]. split; [exact E6|].
    rewrite E7, E6. reflexivity.
Defined.

(** C1 as written fails: a delivery that ends in a network error leaves the
    counter and the retry time of the entry untouched. *)
Lemma network_error_not_counted :
  let e := Samples.entry "1" 0 None in
  let w := Samples.always NetworkError 1000 in
  snd (processQueue w (mkStore [e] false)) = [mkAttempt 0 e NetworkError] /\
  queue (fst (processQueue w (mkStore [e] false))) = [e] /\
  attempts e = 0%nat /\ nextRetryAt e = None /\ lastAttemptAt e = None /\
  ~ (exists e', In e' (queue (fst (processQueue w (mkStore [e] false)))) /\
                attempts e' = (attempts e + 1)%nat).
Proof.
  simpl. repeat split; auto.
  intros (e' & [<-|[]] & H). discriminate.
Qed.

(** *** C2 *)

(** C2, as the code has it.  A pass attempts the entries of the queue in
    insertion order, from the first one on and without a gap, whatever their
    [nextRetryAt]; it goes on after every answer that is not retryable and
    ends at the first retryable one (a status of 500 or more, or a network
    error), so that nothing behind that entry is attempted. *)
Theorem drain_in_order_until_retryable (w : World) (st : SyncStoreState) :
  let tr := snd (processQueue w st) in
  (forall j x, nth_error tr j = Some x ->
     att_index x = j /\
     nth_error (queue st) j = Some (att_action x) /\
     att_result x = fetch w j) /\
  (forall j x, nth_error tr j = Some x ->
     retryable (att_result x) = true -> length tr = S j) /\
  (forall j x, nth_error tr j = Some x ->
     retryable (att_result x) = false ->
     (S j < length (queue st))%nat -> (S j < length tr)%nat) /\
  (queue st <> [] -> tr <> []) /\
  (length tr <= length (queue st))%nat.
Proof.
  cbv zeta. rewrite processQueue_trace.
  split; [|split; [|split; [|split]]].
  - intros j x H.
    destruct (drainLoop_trace _ _ _ _ _ _ H) as (H1 & H2 & H3 & _). auto.
  - intros j x H.
    destruct (drainLoop_trace _ _ _ _ _ _ H) as (_ & _ & _ & H4 & _). auto.
  - intros j x H.
    destruct (drainLoop_trace _ _ _ _ _ _ H) as (_ & _ & _ & _ & H5). auto.
  - destruct (queue st) as [|a rest]; [congruence|].
    intros _. apply drainLoop_trace_nonempty.
  - apply drainLoop_trace_length.
Qed.

(** Two entries and a server that answers 503: one attempt is made. *)
Lemma drain_in_order_until_retryable_witness :
  let w := Samples.always (Response 503) 1000 in
  let st := mkStore [Samples.entry "1" 0 None; Samples.entry "2" 0 None] false in
  length (snd (processQueue w st)) = 1%nat.
Proof.
  intros w st.
  destruct (drain_in_order_until_retryable w st) as (_ & B & _).
  apply (B 0%nat (mkAttempt 0 (Samples.entry "1" 0 None) (Response 503)));
    reflexivity.
Defined.

(** C2 as written fails: the first entry is not due before 999999, the
    clock reads 1000 throughout, and yet it is delivered, and the entry
    behind it after it. *)
Lemma future_retry_is_attempted :
  let e1 := Samples.entry "1" 1 (Some 999999) in
  let e2 := Samples.entry "2" 0 None in
  let w := Samples.always (Response 200) 1000 in
  nextRetryAt e1 = Some 999999 /\
  (forall i, date_now (clock w i) < 999999 /\ new_date (clock w i) < 999999) /\
  snd (processQueue w (mkStore [e1; e2] false)) =
    [mkAttempt 0 e1 (Response 200); mkAttempt 1 e2 (Response 200)].
Proof.
  simpl. repeat split; lia.
Qed.

(** *** Sequences of operations *)



Lemma NoDup_same_id (q : list QueuedRequest) (e e' : QueuedRequest) :
  NoDup (map id q) -> In e q -> In e' q -> id e = id e' -> e = e'.
Proof.
  induction q as [|x q IH]; simpl; intros ND He He' E; [contradiction|].
  inversion ND as [|? ? Hn ND']; subst.
  destruct He as [->|He], He' as [->|He']; auto.
  - exfalso. apply Hn. rewrite E. now apply in_map.
  - exfalso. apply Hn. rewrite <- E. now apply in_map.
Qed.


















(** *** C3 *)



(** *** Passes that end at the head of the queue *)

Lemma processQueue_pair w st :
  processQueue w st = (fst (processQueue w st), snd (processQueue w st)).
Proof. apply surjective_pairing. Qed.

Lemma processQueue_head_retryable w e rest b :
  NoDup (map id (e :: rest)) ->
  retryable (fetch w 0) = true ->
  processQueue w (mkStore (e :: rest) b) =
  (mkStore (match fetch w 0 with
            | Response _ => serverErrorUpdate w 0 e
            | NetworkError => e
            end :: rest) false,
   [mkAttempt 0 e (fetch w 0)]).
Proof.
  intros ND R.
  destruct (processQueue_Pass w (mkStore (e :: rest) b) ND) as (q' & P & E).
  rewrite processQueue_pair, E. simpl queue in P.
  remember (snd (processQueue w (mkStore (e :: rest) b))) as tr eqn:T.
  clear T E.
  inversion P; subst;
    match goal with H : fetch w 0 = _ |- _ => rewrite H in * end.
  - match goal with H : xorb _ _ = true |- _ =>
      rewrite (acknowledged_not_retryable _ H) in R end.
    discriminate.
  - match goal with H : _ \/ _ |- _ =>
      rewrite (kept_not_retryable _ H) in R end.
    discriminate.
  - reflexivity.
  - reflexivity.
Qed.

Lemma processQueue_head_kept w e rest b s :
  NoDup (map id (e :: rest)) ->
  fetch w 0 = Response s ->
  s < 200 \/ 300 <= s < 400 ->
  exists tl q',
    processQueue w (mkStore (e :: rest) b) =
      (mkStore (e :: q') false, mkAttempt 0 e (Response s) :: tl) /\
    NoDup (map id (e :: q')).
Proof.
  intros ND F K.
  destruct (processQueue_Pass w (mkStore (e :: rest) b) ND) as (q' & P & E).
  pose proof (Pass_NoDup _ _ _ _ _ P ND) as ND'.
  rewrite processQueue_pair, E. simpl queue in P.
  remember (snd (processQueue w (mkStore (e :: rest) b))) as tr eqn:T.
  clear T E.
  pose proof (kept_not_retryable _ K) as NR.
  inversion P; subst;
    match goal with H : fetch w 0 = _ |- _ => rewrite F in H end.
  - exfalso.
    match goal with H : Response _ = Response _ |- _ => injection H as <- end.
    match goal with H : xorb _ _ = true |- _ => revert H end.
    revert K. unfold is2xx, is4xx. leb_cases.
  - match goal with H : Response _ = Response _ |- _ => injection H as <- end.
    eauto.
  - exfalso.
    match goal with H : Response _ = Response _ |- _ => injection H as <- end.
    lia.
  - discriminate.
Qed.

Lemma failed_head_id w e :
  id (match fetch w 0 with
      | Response _ => serverErrorUpdate w 0 e
      | NetworkError => e
      end) = id e.
Proof. destruct (fetch w 0); reflexivity. Qed.

(** *** Passes in which one entry fails *)

Lemma findById_Some_In (i : string) (q : list QueuedRequest) (e : QueuedRequest) :
  findById i q = Some e -> In e q /\ id e = i.
Proof.
  unfold findById. intros H. apply find_some in H as (H1 & H2).
  split; [exact H1|]. now apply String.eqb_eq.
Qed.

Lemma findById_skip (i : string) (l1 l2 : list QueuedRequest) :
  (forall y, In y l1 -> id y <> i) ->
  findById i (l1 ++ l2) = findById i l2.
Proof.
  induction l1 as [|y l1 IH]; intros H; [reflexivity|].
  simpl. destruct (String.eqb_spec (id y) i) as [E|E].
  - exfalso. apply (H y); [now left|exact E].
  - apply IH. intros z Hz. apply H. now right.
Qed.

Lemma attemptOn_Some (i : string) (tr : list Attempt) (x : Attempt) :
  attemptOn i tr = Some x -> In x tr /\ id (att_action x) = i.
Proof.
  unfold attemptOn. intros H. apply find_some in H as (H1 & H2).
  split; [exact H1|]. now apply String.eqb_eq.
Qed.

Lemma processQueue_NoDup w st :
  NoDup (map id (queue st)) -> NoDup (map id (queue (fst (processQueue w st)))).
Proof.
  intros ND. destruct (processQueue_Pass w st ND) as (q' & P & E).
  rewrite E. simpl. eapply Pass_NoDup; eauto.
Qed.


(** The entry whose delivery fails in a retryable way is, after the pass,
    the entry that the server-error branch wrote, or itself after a network
    error. *)
Lemma pass_failure_entry w st (i : string) (e : QueuedRequest) :
  NoDup (map id (queue st)) ->
  findById i (queue st) = Some e ->
  failsIn i st w ->
  exists x,
    attemptOn i (snd (processQueue w st)) = Some x /\
    att_action x = e /\
    retryable (att_result x) = true /\
    findById i (queue (fst (processQueue w st)))
    = Some (match att_result x with
            | Response _ => serverErrorUpdate w (att_index x) e
            | NetworkError => e
            end) /\
    NoDup (map id (queue (fst (processQueue w st)))).
Proof.
  intros ND Fe (x & Hx & R).
  pose proof (processQueue_NoDup w st ND) as ND'.
  exists x. split; [exact Hx|].
  apply attemptOn_Some in Hx as (Hin & Hi).
  apply findById_Some_In in Fe as (He & Hie).
  destruct (processQueue_Pass w st ND) as (q' & P & E).
  destruct (Pass_stop _ _ _ _ _ P x Hin R) as (pre & post & kept & E1 & _ & I & E4).
  assert (Ha : att_action x = e).
  { apply (NoDup_same_id (queue st)); auto; [|congruence].
    rewrite E1. apply in_or_app. right. now left. }
  split; [exact Ha|]. split; [exact R|]. split; [|exact ND'].
  rewrite E. simpl queue. rewrite E4, Ha.
  rewrite findById_skip.
  - unfold findById. simpl.
    destruct (att_result x); simpl; rewrite Hie, String.eqb_refl; reflexivity.
  - intros y Hy Ey. apply I in Hy.
    rewrite E1, map_app in ND. simpl in ND.
    apply NoDup_remove_2 in ND. apply ND. apply in_or_app. left.
    rewrite Ha, Hie, <- Ey. now apply in_map.
Qed.


(** Passes in which one entry keeps failing: the entry stays, with its cap,
    and its counter grows with every answered failure. *)
Lemma keepsFailing_entry (ws : list World) :
  forall (i : string) (st : SyncStoreState) (e : QueuedRequest),
  NoDup (map id (queue st)) ->
  findById i (queue st) = Some e ->
  keepsFailing i st ws ->
  exists e',
    findById i (queue (execAll st (map OpDrain ws))) = Some e' /\
    maxAttempts e' = maxAttempts e /\
    attempts e' = (attempts e + answeredFor i st ws)%nat.
Proof.
  induction ws as [|w ws IH]; intros i st e ND Fe K.
  - exists e. simpl. repeat split; auto.
  - destruct K as (Kw & K').
    destruct (pass_failure_entry w st i e ND Fe Kw)
      as (x & Hx & _ & _ & F1 & ND1).
    simpl map. simpl execAll. unfold exec. simpl answeredFor. rewrite Hx.
    destruct (IH i _ _ ND1 F1 K') as (e' & F' & M' & A').
    exists e'. split; [exact F'|].
    destruct (att_result x); simpl in *; split; try congruence; lia.
Qed.

(** *** C5 *)

Lemma failing_head_passes (ws : list World) :
  forall (e : QueuedRequest) (rest : list QueuedRequest) (b : bool),
  NoDup (map id (e :: rest)) ->
  Forall (fun w => retryable (fetch w 0) = true) ws ->
  (exists e',
     queue (execAll (mkStore (e :: rest) b) (map OpDrain ws)) = e' :: rest /\
     id e' = id e /\
     maxAttempts e' = maxAttempts e /\
     attempts e' = (attempts e + answered ws)%nat) /\
  Forall2 (fun w tr => exists x, tr = [x] /\ att_index x = 0%nat /\
                                 id (att_action x) = id e /\
                                 att_result x = fetch w 0)
          ws (history (mkStore (e :: rest) b) (map OpDrain ws)).
Proof.
  induction ws as [|w ws IH]; intros e rest b ND F.
  - simpl. split; [|constructor].
    exists e. unfold answered. simpl. repeat split; auto.
  - inversion F as [|? ? R F']; subst.
    simpl map. simpl execAll. simpl history.
    unfold exec. rewrite (processQueue_head_retryable w e rest b ND R).
    cbn [fst snd].
    set (e1 := match fetch w 0 with
               | Response _ => serverErrorUpdate w 0 e
               | NetworkError => e
               end).
    assert (I1 : id e1 = id e) by apply failed_head_id.
    assert (ND1 : NoDup (map id (e1 :: rest))).
    { simpl in *. now rewrite I1. }
    destruct (IH e1 rest false ND1 F') as ((e' & Q & I & M & A) & H).
    split.
    + exists e'. split; [exact Q|]. split; [congruence|].
      unfold answered in *. simpl. subst e1.
      destruct (fetch w 0); simpl in *; split; try congruence; lia.
    + constructor.
      * eexists. repeat split; reflexivity.
      * rewrite I1 in H. exact H.
Qed.

(** C5, as the code has it.  [processQueue] never reads [maxAttempts].  In a
    queue of distinct ids, an entry whose delivery fails in a retryable way
    in pass after pass stays in the queue, its cap unchanged and its counter
    one higher for every response of 500 or more, however large the counter
    has become.  At the head of the queue such an entry is delivered again
    in every pass, and nothing behind it is. *)
Theorem retried_whatever_maxAttempts :
  (forall (ws : list World) (i : string) (st : SyncStoreState)
          (e : QueuedRequest),
     NoDup (map id (queue st)) ->
     findById i (queue st) = Some e ->
     keepsFailing i st ws ->
     exists e',
       findById i (queue (execAll st (map OpDrain ws))) = Some e' /\
       maxAttempts e' = maxAttempts e /\
       attempts e' = (attempts e + answeredFor i st ws)%nat) /\
  (forall (ws : list World) (e : QueuedRequest) (rest : list QueuedRequest)
          (b : bool),
     NoDup (map id (e :: rest)) ->
     Forall (fun w => retryable (fetch w 0) = true) ws ->
     (exists e',
        queue (execAll (mkStore (e :: rest) b) (map OpDrain ws)) = e' :: rest /\
        id e' = id e /\
        maxAttempts e' = maxAttempts e /\
        attempts e' = (attempts e + answered ws)%nat) /\
     Forall2 (fun w tr => exists x, tr = [x] /\ att_index x = 0%nat /\
                                    id (att_action x) = id e /\
                                    att_result x = fetch w 0)
             ws (history (mkStore (e :: rest) b) (map OpDrain ws))).
Proof.
  split; [exact keepsFailing_entry|exact failing_head_passes].
Qed.

(** Two failing passes over an entry that has been tried seven times, at
    the head of the queue and behind an entry that is answered 304. *)
Lemma retried_whatever_maxAttempts_witness :
  let e := Samples.entry "1" 7 None in
  let w := Samples.always (Response 503) 1000 in
  let w' := mkWorld (fun k => match k with
                              | O => Response 304
                              | _ => Response 503
                              end)
                    (fun _ => mkClock 1000 1000) in
  (exists e',
     queue (execAll (mkStore [e] false) (map OpDrain [w; w])) = [e'] /\
     attempts e' = 9%nat) /\
  (exists e',
     findById "id1" (queue (execAll (mkStore [Samples.entry "0" 0 None; e] false)
                                    (map OpDrain [w'; w'])))
     = Some e' /\
     attempts e' = 9%nat).
Proof.
  intros e w w'.
  destruct retried_whatever_maxAttempts as (A & B).
  split.
  - destruct (B [w; w] e [] false) as ((e' & Q & _ & _ & H) & _).
    + simpl. constructor; [intros []|constructor].
    + repeat constructor.
    + exists e'. split; [exact Q|exact H].
  - destruct (A [w'; w'] "id1" (mkStore [Samples.entry "0" 0 None; e] false) e)
      as (e' & Q & _ & H).
    + simpl. constructor; [intros [H|[]]; discriminate|].
      constructor; [intros []|constructor].
    + reflexivity.
    + simpl. repeat split; eexists; (split; [reflexivity|reflexivity]).
    + exists e'. split; [exact Q|exact H].
Defined.

(** C5 as written fails: the request is enqueued with [maxAttempts = 1];
    after two deliveries answered with 503 it is still queued, with two
    attempts counted. *)
Lemma cap_is_ignored :
  let w := Samples.always (Response 503) 1000 in
  let st := execAll initialState
              [OpEnqueue w (Samples.gen "1" 0) Samples.cappedRequest; OpDrain w] in
  map (fun e => (attempts e, maxAttempts e)) (queue st) = [(2%nat, Some 1%nat)] /\
  history initialState
    [OpEnqueue w (Samples.gen "1" 0) Samples.cappedRequest; OpDrain w; OpDrain w]
  = [ [mkAttempt 0 (newRequest (Samples.gen "1" 0) Samples.cappedRequest)
                 (Response 503)];
      [mkAttempt 0 (serverErrorUpdate w 0
                      (newRequest (Samples.gen "1" 0) Samples.cappedRequest))
                 (Response 503)];
      [mkAttempt 0 (serverErrorUpdate w 0
                      (serverErrorUpdate w 0
                         (newRequest (Samples.gen "1" 0) Samples.cappedRequest)))
                 (Response 503)] ].
Proof.
  split; reflexivity.
Qed.

(** *** C8 *)

(** C8.  From the empty store, a request is enqueued and its delivery is
    answered 503; two further passes are answered 503 and a fourth 200.  The
    retry times written by the three failures lie 30 s, 60 s and 120 s after
    the clock reading of the failure; the fourth pass delivers the entry
    with success and the queue is empty afterwards.  (The method of the
    request plays no part.) *)
Theorem scenario_three_503_then_200
        (g : Fresh) (request : NewRequest) (w1 w2 w3 w4 : World) :
  fetch w1 0 = Response 503 ->
  fetch w2 0 = Response 503 ->
  fetch w3 0 = Response 503 ->
  fetch w4 0 = Response 200 ->
  let st1 := fst (addToQueue w1 g request initialState) in
  let st2 := fst (processQueue w2 st1) in
  let st3 := fst (processQueue w3 st2) in
  let st4 := fst (processQueue w4 st3) in
  exists e1 e2 e3,
    queue st1 = [e1] /\ queue st2 = [e2] /\ queue st3 = [e3] /\
    nextRetryAt e1 = Some (date_now (clock w1 0) + 30000) /\
    nextRetryAt e2 = Some (date_now (clock w2 0) + 60000) /\
    nextRetryAt e3 = Some (date_now (clock w3 0) + 120000) /\
    backoffMs (attempts e1) = 30000 /\
    backoffMs (attempts e2) = 60000 /\
    backoffMs (attempts e3) = 120000 /\
    snd (processQueue w4 st3) = [mkAttempt 0 e3 (Response 200)] /\
    ok 200 = true /\
    queue st4 = [] /\
    getQueueLength st4 = 0%nat.
Proof.
  intros F1 F2 F3 F4.
  change (addToQueue w1 g request initialState)
    with (processQueue w1 (mkStore [newRequest g request] false)).
  set (e0 := newRequest g request).
  assert (N : forall e, NoDup (map id [e])).
  { intros e. simpl. constructor; [intros []|constructor]. }
  assert (R : forall w, fetch w 0 = Response 503 -> retryable (fetch w 0) = true).
  { intros w F. now rewrite F. }
  rewrite (processQueue_head_retryable w1 e0 [] false (N _) (R _ F1)), F1.
  cbn [fst snd].
  rewrite (processQueue_head_retryable w2 _ [] false (N _) (R _ F2)), F2.
  cbn [fst snd].
  rewrite (processQueue_head_retryable w3 _ [] false (N _) (R _ F3)), F3.
  cbn [fst snd].
  do 3 eexists.
  split; [reflexivity|]. split; [reflexivity|]. split; [reflexivity|].
  split; [reflexivity|]. split; [reflexivity|]. split; [reflexivity|].
  split; [reflexivity|]. split; [reflexivity|]. split; [reflexivity|].
  unfold processQueue. simpl. rewrite F4. simpl.
  rewrite String.eqb_refl. simpl. auto.
Qed.

(** The scenario with every clock reading fixed. *)
Lemma scenario_three_503_then_200_witness :
  let down t := Samples.always (Response 503) t in
  let up := Samples.always (Response 200) 500000 in
  let st1 := fst (addToQueue (down 0) (Samples.gen "1" 0)
                             Samples.sampleRequest initialState) in
  let st2 := fst (processQueue (down 30000) st1) in
  let st3 := fst (processQueue (down 90000) st2) in
  getQueueLength (fst (processQueue up st3)) = 0%nat.
Proof.
  intros down up st1 st2 st3.
  destruct (scenario_three_503_then_200 (Samples.gen "1" 0) Samples.sampleRequest
              (down 0) (down 30000) (down 90000) up)
    as (e1 & e2 & e3 & _ & _ & _ & _ & _ & _ & _ & _ & _ & _ & _ & _ & L);
    [reflexivity|reflexivity|reflexivity|reflexivity|].
  exact L.
Defined.

(** *** The backoff *)






(** *** C9 *)



(** *** C10 *)

Lemma is3xx_kept (s : Z) : is3xx s = true -> s < 200 \/ 300 <= s < 400.
Proof. unfold is3xx. intros H. right. leb_cases. Qed.

Lemma redirected_head_stays (ws : list World) :
  forall (e : QueuedRequest) (rest : list QueuedRequest) (b : bool),
  NoDup (map id (e :: rest)) ->
  Forall (fun w => exists s, fetch w 0 = Response s /\ is3xx s = true) ws ->
  (exists rest',
     queue (execAll (mkStore (e :: rest) b) (map OpDrain ws)) = e :: rest') /\
  Forall2 (fun w tr => exists tl, tr = mkAttempt 0 e (fetch w 0) :: tl)
          ws (history (mkStore (e :: rest) b) (map OpDrain ws)).
Proof.
  induction ws as [|w ws IH]; intros e rest b ND F.
  - simpl. split; [eauto|constructor].
  - inversion F as [|? ? (s & Fw & S3) F']; subst.
    simpl map. simpl execAll. simpl history. unfold exec.
    destruct (processQueue_head_kept w e rest b s ND Fw (is3xx_kept _ S3))
      as (tl & q' & E & ND').
    rewrite E. cbn [fst snd].
    destruct (IH e q' false ND' F') as (Q & H).
    split; [exact Q|].
    constructor; [|exact H].
    exists tl. now rewrite Fw.
Qed.

(** A pass gets to every entry before which no delivery fails in a
    retryable way, whatever the clock and the retry times. *)
Lemma drainLoop_reaches w acts : forall i st k e,
  nth_error acts k = Some e ->
  (forall j, (j < k)%nat -> retryable (fetch w (i + j)) = false) ->
  nth_error (snd (drainLoop w acts i st)) k
  = Some (mkAttempt (i + k) e (fetch w (i + k))).
Proof.
  induction acts as [|a rest IH]; intros i st k e Hk Hj.
  - destruct k; discriminate.
  - rewrite drainLoop_cons. cbv zeta. destruct k as [|k].
    + injection Hk as <-. rewrite Nat.add_0_r.
      destruct (retryable (fetch w i)); reflexivity.
    + pose proof (Hj 0%nat ltac:(lia)) as H0. rewrite Nat.add_0_r in H0.
      rewrite H0. simpl. rewrite Nat.add_succ_r.
      apply (IH (S i)); [exact Hk|].
      intros j Hlt. specialize (Hj (S j) ltac:(lia)).
      now rewrite Nat.add_succ_r in Hj.
Qed.

Lemma redirected_entry_stays (ws : list World) :
  forall (st : SyncStoreState) (e : QueuedRequest),
  NoDup (map id (queue st)) ->
  In e (queue st) ->
  keepsRedirected (id e) st ws ->
  In e (queue (execAll st (map OpDrain ws))).
Proof.
  induction ws as [|w ws IH]; intros st e ND He K; [exact He|].
  destruct K as (Kw & K').
  simpl map. simpl execAll. unfold exec.
  apply IH; [now apply processQueue_NoDup| |exact K'].
  destruct (processQueue_Pass w st ND) as (q' & P & E).
  rewrite E. simpl queue.
  destruct (attemptOn (id e) (snd (processQueue w st))) as [x|] eqn:A.
  - destruct (Kw x eq_refl) as (s & Hr & S3).
    apply attemptOn_Some in A as (Hx & Hi).
    assert (Ha : att_action x = e).
    { apply (NoDup_same_id (queue st)); auto.
      eapply Pass_attempts; eauto. }
    rewrite <- Ha.
    apply (Pass_kept _ _ _ _ _ P x s Hx Hr (is3xx_kept _ S3)).
  - apply (Pass_untouched _ _ _ _ _ P e He).
    intros x Hx Ha.
    pose proof (find_none _ _ A x Hx) as N. simpl in N.
    rewrite Ha, String.eqb_refl in N. discriminate.
Qed.

(** C10.  In a queue of distinct ids, an entry whose delivery is answered
    with a status from 300 to 399 is, after the pass, in the queue as it
    was (so neither its counter nor its retry time has changed), and the
    pass goes on to the entry behind it, if there is one.  As long as its
    deliveries are answered so, it is in the queue, as it was, after any
    number of passes.  Every pass delivers it again unless a delivery before
    it fails in a retryable way, whatever the clock; at the head of the queue
    it is delivered first in every pass. *)
Theorem redirect_neither_removed_nor_updated :
  (forall (w : World) (st : SyncStoreState) (x : Attempt) (s : Z),
     NoDup (map id (queue st)) ->
     In x (snd (processQueue w st)) ->
     att_result x = Response s ->
     is3xx s = true ->
     nth_error (queue st) (att_index x) = Some (att_action x) /\
     In (att_action x) (queue (fst (processQueue w st))) /\
     (forall next,
        nth_error (queue st) (S (att_index x)) = Some next ->
        exists y, In y (snd (processQueue w st)) /\
                  att_index y = S (att_index x) /\ att_action y = next)) /\
  (forall (ws : list World) (st : SyncStoreState) (e : QueuedRequest),
     NoDup (map id (queue st)) ->
     In e (queue st) ->
     keepsRedirected (id e) st ws ->
     In e (queue (execAll st (map OpDrain ws)))) /\
  (forall (w : World) (st : SyncStoreState) (k : nat) (e : QueuedRequest),
     nth_error (queue st) k = Some e ->
     (forall j, (j < k)%nat -> retryable (fetch w j) = false) ->
     nth_error (snd (processQueue w st)) k = Some (mkAttempt k e (fetch w k))) /\
  (forall (ws : list World) (e : QueuedRequest) (rest : list QueuedRequest)
          (b : bool),
     NoDup (map id (e :: rest)) ->
     Forall (fun w => exists s, fetch w 0 = Response s /\ is3xx s = true) ws ->
     (exists rest',
        queue (execAll (mkStore (e :: rest) b) (map OpDrain ws)) = e :: rest') /\
     Forall2 (fun w tr => exists tl, tr = mkAttempt 0 e (fetch w 0) :: tl)
             ws (history (mkStore (e :: rest) b) (map OpDrain ws))).
Proof.
  split; [|split; [exact redirected_entry_stays|
                   split; [|exact redirected_head_stays]]].
  2:{ intros w st k e Hk Hj. rewrite processQueue_trace.
      now apply (drainLoop_reaches w (queue st) 0). }
  intros w st x s ND Hx Hr S3.
  destruct (processQueue_Pass w st ND) as (q' & P & E).
  pose proof (Pass_kept _ _ _ _ _ P x s Hx Hr (is3xx_kept _ S3)) as K.
  rewrite E. simpl queue.
  rewrite processQueue_trace in *.
  destruct (In_nth_error _ _ Hx) as (j & Hj).
  destruct (drainLoop_trace _ _ _ _ _ _ Hj) as (I1 & I2 & _ & _ & L).
  simpl in I1. rewrite I1.
  split; [exact I2|]. split; [exact K|].
  intros next Hnext.
  assert (Hlt : (S j < length (queue st))%nat).
  { apply nth_error_Some. congruence. }
  rewrite Hr in L.
  specialize (L (kept_not_retryable _ (is3xx_kept _ S3)) Hlt).
  apply nth_error_Some in L.
  match type of L with
  | nth_error ?t _ <> None => destruct (nth_error t (S j)) as [y|] eqn:Hy
  end; [|congruence].
  destruct (drainLoop_trace _ _ _ _ _ _ Hy) as (J1 & J2 & _).
  exists y. split; [eapply nth_error_In; eauto|].
  simpl in J1. split; [exact J1|congruence].
Qed.

(** Two entries that are both answered 304: the first after one pass and
    after three, the second after two. *)
Lemma redirect_neither_removed_nor_updated_witness :
  let w := Samples.always (Response 304) 1000 in
  let e1 := Samples.entry "1" 0 None in
  let e2 := Samples.entry "2" 0 None in
  In e1 (queue (fst (processQueue w (mkStore [e1; e2] false)))) /\
  In e2 (queue (execAll (mkStore [e1; e2] false) (map OpDrain [w; w]))) /\
  exists rest',
    queue (execAll (mkStore [e1; e2] false) (map OpDrain [w; w; w]))
    = e1 :: rest'.
Proof.
  intros w e1 e2.
  assert (ND : NoDup (map id [e1; e2])).
  { simpl. constructor; [intros [H|[]]; discriminate|].
    constructor; [intros []|constructor]. }
  destruct redirect_neither_removed_nor_updated as (A & B & _ & C).
  split; [|split].
  - apply (A w (mkStore [e1; e2] false) (mkAttempt 0 e1 (Response 304)) 304).
    + exact ND.
    + simpl. now left.
    + reflexivity.
    + reflexivity.
  - apply (B [w; w] (mkStore [e1; e2] false) e2).
    + exact ND.
    + simpl. now right; left.
    + simpl. repeat split; intros x Hx; injection Hx as <-;
        exists 304; split; reflexivity.
  - apply (C [w; w; w] e1 [e2] false).
    + exact ND.
    + repeat constructor; exists 304; split; reflexivity.
Defined.

(* ================================================================== *)
(** ** Properties of the triggers                                      *)
(* ================================================================== *)

Import QueueManager.

(** A pass that nothing interrupts is [processQueue]: the machine of
    suspended calls, given the replies of the world one after the other,
    ends in the store that [drainLoop] computes, having handed to [fetch]
    the entries of its trace. *)
Lemma settle_pass w rest : forall a i st iss,
  run (mkSystem st [mkTask (a :: rest) i] (iss ++ [a]))
      (replies w i (length (snd (drainLoop w (a :: rest) i st))))
  = mkSystem (set_isProcessing false (fst (drainLoop w (a :: rest) i st)))
             []
             (iss ++ map att_action (snd (drainLoop w (a :: rest) i st))).
Proof.
  induction rest as [|next rest IH]; intros a i st iss.
  - rewrite drainLoop_cons. cbv zeta.
    pose proof (handleResult_continue (clock w i) a (fetch w i) st) as C.
    destruct (retryable (fetch w i)) eqn:R; simpl;
      unfold settle; simpl;
      destruct (handleResult (clock w i) a (fetch w i) st) as [st' cont];
      simpl in *; subst cont; reflexivity.
  - rewrite drainLoop_cons. cbv zeta.
    pose proof (handleResult_continue (clock w i) a (fetch w i) st) as C.
    destruct (retryable (fetch w i)) eqn:R.
    + simpl. unfold settle. simpl.
      destruct (handleResult (clock w i) a (fetch w i) st) as [st' cont].
      simpl in *. subst cont. reflexivity.
    + cbn [snd fst length replies map]. unfold run. cbn [fold_left step].
      unfold settle at 1. cbn [tasks nth_error pending store index issued].
      destruct (handleResult (clock w i) a (fetch w i) st) as [st' cont].
      simpl in C. subst cont. cbn [negb fst replaceNth].
      fold (run (mkSystem st' [mkTask (next :: rest) (S i)]
                          ((iss ++ [a]) ++ [next]))
                (replies w (S i)
                   (length (snd (drainLoop w (next :: rest) (S i) st'))))).
      rewrite IH. rewrite <- app_assoc. reflexivity.
Qed.

Lemma manual_pass_is_processQueue w st :
  run (idle st)
      (ManualTrigger :: replies w 0 (length (snd (processQueue w st))))
  = mkSystem (fst (processQueue w st)) []
             (map att_action (snd (processQueue w st))).
Proof.
  unfold processQueue, idle. destruct st as [q b].
  destruct q as [|a rest]; [reflexivity|].
  cbn [queue].
  pose proof (settle_pass w rest a 0 (set_isProcessing true (mkStore (a :: rest) b)) [])
    as H.
  destruct (drainLoop w (a :: rest) 0 (set_isProcessing true (mkStore (a :: rest) b)))
    as [st' tr] eqn:D.
  cbn [fst snd] in *. simpl app in H.
  unfold run in *. cbn [fold_left step startProcessQueue store queue tasks issued app].
  exact H.
Qed.

(** The guard of [addToQueue]: while [isProcessing] is set an enqueue
    starts no pass and leaves the suspended passes and their snapshots as
    they are; the new entry is at the end of the stored queue, where the
    next pass reads it. *)
Lemma enqueue_while_processing (s : System) (g : Fresh) (request : NewRequest) :
  isProcessing (store s) = true ->
  step s (Enqueue g request) =
  mkSystem (mkStore (queue (store s) ++ [newRequest g request]) true)
           (tasks s) (issued s).
Proof.
  intros B. simpl. unfold appendRequest, set_queue. simpl. rewrite B. reflexivity.
Qed.

Lemma drainLoop_trace_indep w acts : forall i st st',
  snd (drainLoop w acts i st) = snd (drainLoop w acts i st').
Proof.
  induction acts as [|a rest IH]; intros i st st'; [reflexivity|].
  rewrite !drainLoop_cons. cbv zeta.
  destruct (retryable (fetch w i)); simpl; [reflexivity|].
  f_equal. apply IH.
Qed.

Lemma Pass_functional w i acts tr q :
  Pass w i acts tr q ->
  forall tr' q', Pass w i acts tr' q' -> tr = tr' /\ q = q'.
Proof.
  induction 1; intros tr' q2 P2; inversion P2; subst;
    try match goal with
        | H1 : fetch w ?i = _, H2 : fetch w ?i = _ |- _ =>
            rewrite H1 in H2; try discriminate H2;
            injection H2 as <-
        end;
    try (split; reflexivity);
    try match goal with
        | IH : forall tr' q', Pass _ _ _ tr' q' -> _, P : Pass _ _ _ _ _ |- _ =>
            destruct (IH _ _ P) as (<- & <-)
        end;
    try (split; reflexivity);
    exfalso;
    repeat match goal with
           | H : xorb _ _ = true |- _ => revert H
           | H : _ \/ _ |- _ => revert H
           | H : 500 <= _ |- _ => revert H
           end;
    unfold is2xx, is4xx; intros; leb_cases.
Qed.

(** An entry enqueued while a pass is in flight: no second pass starts, the
    pass in flight delivers what it would have delivered without the
    enqueue, the new entry is in the stored queue behind what the pass
    leaves, and the next pass has it in its snapshot. *)
Lemma enqueued_during_pass_waits
      (w : World) (a : QueuedRequest) (rest : list QueuedRequest) (b : bool)
      (g : Fresh) (request : NewRequest) :
  NoDup (map id ((a :: rest) ++ [newRequest g request])) ->
  let s0 := step (idle (mkStore (a :: rest) b)) ManualTrigger in
  let s1 := step s0 (Enqueue g request) in
  let alone := processQueue w (mkStore (a :: rest) b) in
  let s2 := run s1 (replies w 0 (length (snd alone))) in
  tasks s1 = tasks s0 /\
  issued s1 = issued s0 /\
  s2 = mkSystem (mkStore (queue (fst alone) ++ [newRequest g request]) false)
                [] (map att_action (snd alone)) /\
  tasks (step s2 ManualTrigger)
  = [mkTask (queue (fst alone) ++ [newRequest g request]) 0].
Proof.
  intros ND. cbv zeta.
  set (new := newRequest g request) in *.
  assert (NDa : NoDup (map id (a :: rest))).
  { rewrite map_app in ND. now apply NoDup_app_remove_r in ND. }
  destruct (processQueue_Pass w (mkStore (a :: rest) b) NDa) as (q1 & P1 & E1).
  destruct (drainLoop_Pass w (a :: rest) [] [new] 0 true ND) as (q2 & P2 & E2).
  simpl app in P2, E2.
  rewrite processQueue_trace in P1. simpl queue in P1.
  rewrite (drainLoop_trace_indep w (a :: rest) 0 _
             (mkStore (a :: rest ++ [new]) true)) in P1.
  destruct (Pass_functional _ _ _ _ _ P1 _ _ P2) as (_ & <-).
  assert (S1 : step (step (idle (mkStore (a :: rest) b)) ManualTrigger)
                    (Enqueue g request)
               = mkSystem (mkStore (a :: rest ++ [new]) true)
                          [mkTask (a :: rest) 0] ([] ++ [a])).
  { reflexivity. }
  split; [reflexivity|]. split; [reflexivity|].
  rewrite S1, E1. simpl queue.
  rewrite processQueue_trace. simpl queue.
  rewrite (drainLoop_trace_indep w (a :: rest) 0 _
             (mkStore (a :: rest ++ [new]) true)).
  rewrite settle_pass, E2. simpl app.
  split; [reflexivity|].
  simpl. destruct (q1 ++ [new])%list eqn:Q; [|reflexivity].
  now destruct q1.
Qed.

(** *** C4 *)

(** C4 on the code: [processQueue] does not look at [isProcessing].  With a
    pass suspended in its first [fetch], the next trigger starts a second
    pass over the same snapshot: two calls are in flight and the first entry
    has been handed to [fetch] twice. *)
Theorem second_trigger_starts_second_pass
        (e : QueuedRequest) (rest : list QueuedRequest) (b : bool) :
  let s1 := step (idle (mkStore (e :: rest) b)) (NetInfoChange true true) in
  let s2 := step s1 (AppStateChange active) in
  tasks s1 = [mkTask (e :: rest) 0] /\
  isProcessing (store s1) = true /\
  tasks s2 = [mkTask (e :: rest) 0; mkTask (e :: rest) 0] /\
  issued s2 = [e; e] /\
  tasks (step s1 ManualTrigger) = tasks s2 /\
  (forall now,
     tasks (step s1 (TimerTick now)) =
     if hasReadyRequests now (e :: rest) then tasks s2 else tasks s1).
Proof.
  cbv zeta.
  set (s1 := step (idle (mkStore (e :: rest) b)) (NetInfoChange true true)).
  do 5 (split; [reflexivity|]).
  intros now. unfold step at 1.
  change (queue (store s1)) with (e :: rest).
  destruct (hasReadyRequests now (e :: rest)); reflexivity.
Qed.

(* ================================================================== *)
(** ** Properties of the local-order statements                        *)
(* ================================================================== *)

Module Orders.
Import BasketRepository.

(** *** [ORDER BY created_at ASC] *)

Lemma insertByCreatedAt_perm (r : LocalOrderRow) (l : list LocalOrderRow) :
  Permutation (insertByCreatedAt r l) (r :: l).
Proof.
  induction l as [|x l IH]; simpl; [apply Permutation_refl|].
  destruct (created_at r <? created_at x).
  - apply Permutation_refl.
  - eapply Permutation_trans; [apply perm_skip, IH|apply perm_swap].
Qed.

Lemma orderByCreatedAtAsc_perm (l : list LocalOrderRow) :
  Permutation (orderByCreatedAtAsc l) l.
Proof.
  induction l as [|x l IH]; simpl; [constructor|].
  eapply Permutation_trans; [apply insertByCreatedAt_perm|].
  now apply perm_skip.
Qed.

Lemma insertByCreatedAt_HdRel (x r : LocalOrderRow) (l : list LocalOrderRow) :
  HdRel olderOrSame x l -> olderOrSame x r ->
  HdRel olderOrSame x (insertByCreatedAt r l).
Proof.
  intros H Hr. destruct l as [|y l]; simpl.
  - now constructor.
  - destruct (created_at r <? created_at y); constructor; auto.
    now inversion H.
Qed.

Lemma insertByCreatedAt_sorted (r : LocalOrderRow) (l : list LocalOrderRow) :
  Sorted olderOrSame l -> Sorted olderOrSame (insertByCreatedAt r l).
Proof.
  induction 1 as [|x l S IH H]; simpl.
  - repeat constructor.
  - destruct (Z.ltb_spec (created_at r) (created_at x)).
    + constructor.
      * now constructor.
      * constructor. unfold olderOrSame. lia.
    + constructor.
      * exact IH.
      * apply insertByCreatedAt_HdRel; auto.
Qed.

Lemma orderByCreatedAtAsc_sorted (l : list LocalOrderRow) :
  Sorted olderOrSame (orderByCreatedAtAsc l).
Proof.
  induction l as [|x l IH]; simpl; [constructor|].
  now apply insertByCreatedAt_sorted.
Qed.

Lemma unsynced_spec (r : LocalOrderRow) :
  unsynced r = true <-> status r = "paid" /\ sync_status r <> "synced".
Proof.
  unfold unsynced. rewrite andb_true_iff, negb_true_iff.
  rewrite String.eqb_eq, String.eqb_neq. reflexivity.
Qed.

Lemma findUnsyncedOrders_In (t : Table) (r : LocalOrderRow) :
  In r (findUnsyncedOrders t) <->
  In r t /\ status r = "paid" /\ sync_status r <> "synced".
Proof.
  unfold findUnsyncedOrders. split.
  - intros H.
    apply (Permutation_in _ (orderByCreatedAtAsc_perm _)) in H.
    apply filter_In in H as (H1 & H2). apply unsynced_spec in H2. auto.
  - intros (H1 & H2).
    apply (Permutation_in _ (Permutation_sym (orderByCreatedAtAsc_perm _))).
    apply filter_In. split; auto. now apply unsynced_spec.
Qed.

(** *** C6 *)

(** C6, as the code has it.  [findUnsyncedOrders] returns exactly the rows
    with [status = 'paid'] and a [sync_status] other than ['synced'], each as
    often as the table holds it, oldest first.  So a row in ['pending'],
    ['failed'] or ['syncing'] state is selected, whatever else it carries,
    and a row in ['synced'] state never is. *)
Theorem findUnsyncedOrders_selects_not_synced (t : Table) :
  Sorted olderOrSame (findUnsyncedOrders t) /\
  Permutation (findUnsyncedOrders t) (filter unsynced t) /\
  (forall r, In r (findUnsyncedOrders t) <->
             In r t /\ status r = "paid" /\ sync_status r <> "synced") /\
  (forall r, In r t -> status r = "paid" ->
             sync_status r = "pending" \/ sync_status r = "failed" \/
             sync_status r = "syncing" ->
             In r (findUnsyncedOrders t)) /\
  (forall r, In r (findUnsyncedOrders t) -> sync_status r <> "synced").
Proof.
  pose proof (findUnsyncedOrders_In t) as M.
  split; [apply orderByCreatedAtAsc_sorted|].
  split; [apply orderByCreatedAtAsc_perm|].
  split; [exact M|]. split.
  - intros r H1 H2 H3. apply M. repeat split; auto.
    destruct H3 as [-> |[-> | ->]]; discriminate.
  - intros r H. now apply M in H.
Qed.

(** Three paid orders, the oldest last in the table. *)
Lemma findUnsyncedOrders_selects_not_synced_witness :
  let t := [Samples.order "a" 30 "failed"; Samples.order "b" 20 "synced";
            Samples.order "c" 10 "pending"] in
  In (Samples.order "a" 30 "failed") (findUnsyncedOrders t) /\
  ~ In (Samples.order "b" 20 "synced") (findUnsyncedOrders t).
Proof.
  intros t.
  destruct (findUnsyncedOrders_selects_not_synced t) as (_ & _ & _ & A & B).
  split.
  - apply A; [now left|reflexivity|now right; left].
  - intros H. now apply B in H.
Defined.

(** C6 as written fails: a paid order in ['syncing'] state is selected. *)
Lemma syncing_order_is_selected :
  let r := Samples.order "a" 10 "syncing" in
  findUnsyncedOrders [r] = [r] /\
  status r = "paid" /\
  sync_status r <> "pending" /\ sync_status r <> "failed".
Proof.
  simpl. repeat split; discriminate.
Qed.

(** *** C7 *)

Lemma updateWhereId_nth (o : string) (f : LocalOrderRow -> LocalOrderRow)
      (t : Table) (k : nat) (r : LocalOrderRow) :
  nth_error t k = Some r ->
  nth_error (updateWhereId o f t) k
  = Some (if String.eqb (id r) o then f r else r).
Proof.
  intros H. unfold updateWhereId. rewrite nth_error_map, H. reflexivity.
Qed.

(** A statement that does not write a sync column of order [id r] leaves
    the sync state of row [r] as it is, and the row where it is. *)
Lemma execute_keeps_syncState (t : Table) (s : Statement) (k : nat)
      (r : LocalOrderRow) :
  nth_error t k = Some r ->
  syncWriteTo (id r) s = false ->
  exists r', nth_error (execute t s) k = Some r' /\
             id r' = id r /\ syncState r' = syncState r.
Proof.
  intros H W. unfold syncWriteTo in W.
  destruct s as [now o st|now o m tx|now o p|now o ss e|now input];
    simpl in *.
  - unfold updateOrderStatus. rewrite (updateWhereId_nth _ _ _ _ _ H).
    eexists. split; [reflexivity|].
    destruct (String.eqb (id r) o); split; reflexivity.
  - unfold updateOrderPayment. rewrite (updateWhereId_nth _ _ _ _ _ H).
    eexists. split; [reflexivity|].
    destruct (String.eqb (id r) o); split; reflexivity.
  - unfold updateOrderSyncSuccess. rewrite (updateWhereId_nth _ _ _ _ _ H).
    rewrite String.eqb_sym, W. eauto.
  - unfold updateOrderSyncError. rewrite (updateWhereId_nth _ _ _ _ _ H).
    rewrite String.eqb_sym, W. eauto.
  - unfold createLocalOrder. exists r. split; [|auto].
    rewrite nth_error_app1; [exact H|].
    apply nth_error_Some. congruence.
Qed.

Lemma executeAll_keeps_syncState (ss : list Statement) :
  forall (t : Table) (k : nat) (r : LocalOrderRow),
  nth_error t k = Some r ->
  Forall (fun s => syncWriteTo (id r) s = false) ss ->
  exists r', nth_error (executeAll t ss) k = Some r' /\
             id r' = id r /\ syncState r' = syncState r.
Proof.
  induction ss as [|s ss IH]; intros t k r H F; simpl.
  - exists r. auto.
  - inversion F as [|? ? W F']; subst.
    destruct (execute_keeps_syncState t s k r H W) as (r1 & H1 & I1 & S1).
    rewrite <- I1 in F'.
    destruct (IH (execute t s) k r1 H1 F') as (r' & H' & I' & S').
    exists r'. repeat split; auto; congruence.
Qed.

(** C7, as the code has it.  A row in ['synced'] state is never returned by
    [findUnsyncedOrders], and no sequence of statements changes its
    [sync_status], [sync_error], [synced_at] or [platform_order_id], nor its
    place in the table, as long as none of them is an
    [updateOrderSyncSuccess] or [updateOrderSyncError] addressed to its
    id.  (Those two statements have [WHERE id = ?] as their only condition;
    they are not covered.) *)
Theorem synced_row_kept_by_other_statements
        (ss : list Statement) (t : Table) (k : nat) (r : LocalOrderRow) :
  nth_error t k = Some r ->
  sync_status r = "synced" ->
  Forall (fun s => syncWriteTo (id r) s = false) ss ->
  ~ In r (findUnsyncedOrders t) /\
  exists r',
    nth_error (executeAll t ss) k = Some r' /\
    id r' = id r /\
    syncState r' = syncState r /\
    ~ In r' (findUnsyncedOrders (executeAll t ss)).
Proof.
  intros H S F.
  split.
  - intros Hin. apply findUnsyncedOrders_In in Hin as (_ & _ & N). now apply N.
  - destruct (executeAll_keeps_syncState ss t k r H F) as (r' & H' & I' & S').
    exists r'. repeat split; auto.
    intros Hin. apply findUnsyncedOrders_In in Hin as (_ & _ & N). apply N.
    unfold syncState in S'. congruence.
Qed.

(** A payment update and a status update on a synced order, and a sync
    error recorded for another order. *)
Lemma synced_row_kept_by_other_statements_witness :
  let ss := [UpdateOrderPayment 200 "o1" "card" None;
             UpdateOrderStatus 300 "o1" "cancelled";
             UpdateOrderSyncError 400 "o2" "failed" "timeout"] in
  exists r',
    nth_error (executeAll [Samples.syncedOrder] ss) 0 = Some r' /\
    syncState r' = syncState Samples.syncedOrder.
Proof.
  intros ss.
  destruct (synced_row_kept_by_other_statements ss [Samples.syncedOrder] 0
              Samples.syncedOrder)
    as (_ & r' & H & _ & S & _).
  - reflexivity.
  - reflexivity.
  - repeat constructor.
  - exists r'. split; [exact H|exact S].
Defined.

(** C7 as written fails: [updateOrderSyncError] and [updateOrderSyncSuccess]
    overwrite the sync state of a synced order. *)
Lemma synced_row_is_overwritten :
  sync_status Samples.syncedOrder = "synced" /\
  map syncState
      (updateOrderSyncError 200 "o1" "failed" "timeout" [Samples.syncedOrder])
  = [("failed", Some "timeout", Some 100, Some "P1")] /\
  map syncState
      (updateOrderSyncSuccess 300 "o1" "P2" [Samples.syncedOrder])
  = [("synced", None, Some 300, Some "P2")] /\
  syncState Samples.syncedOrder = ("synced", None, Some 100, Some "P1").
Proof.
  repeat split.
Qed.

End Orders.

(* ================================================================== *)
(** ** More properties of the outbox queue and of its triggers         *)
(* ================================================================== *)

Import QueueOps.

(** *** A pass in which everything is acknowledged *)

Lemma handleResult_acknowledged c a s st :
  xorb (is2xx s) (is4xx s) = true ->
  handleResult c a (Response s) st
  = (set_queue (removeById (id a) (queue st)) st, true).
Proof.
  intros H. unfold handleResult.
  destruct (status_classes s) as (_ & C2 & C3).
  destruct (ok s) eqn:Ok; [reflexivity|].
  destruct (500 <=? s) eqn:S5.
  - exfalso. revert H S5. unfold is2xx, is4xx. leb_cases.
  - destruct (400 <=? s) eqn:S4; [reflexivity|].
    exfalso. specialize (C3 eq_refl eq_refl eq_refl).
    revert H C3. unfold is2xx, is4xx. leb_cases.
Qed.

Lemma removeById_In (i : string) (q : list QueuedRequest) (e : QueuedRequest) :
  In e (removeById i q) <-> In e q /\ id e <> i.
Proof.
  unfold removeById. rewrite filter_In, negb_true_iff, String.eqb_neq.
  reflexivity.
Qed.

Lemma drainLoop_all_acknowledged w acts : forall i st,
  (forall j, (j < length acts)%nat ->
     exists s, fetch w (i + j) = Response s /\ xorb (is2xx s) (is4xx s) = true) ->
  (forall e, In e (queue st) -> In (id e) (map id acts)) ->
  queue (fst (drainLoop w acts i st)) = [] /\
  length (snd (drainLoop w acts i st)) = length acts.
Proof.
  induction acts as [|a rest IH]; intros i st A Q.
  - simpl. split; [|reflexivity].
    destruct (queue st) as [|e q]; [reflexivity|].
    destruct (Q e (or_introl eq_refl)).
  - destruct (A 0%nat ltac:(simpl; lia)) as (s & F & X).
    rewrite Nat.add_0_r in F.
    simpl drainLoop. rewrite F, (handleResult_acknowledged _ _ _ _ X).
    destruct (IH (S i) (set_queue (removeById (id a) (queue st)) st)) as (E & L).
    + intros j Hj. destruct (A (S j) ltac:(simpl; lia)) as (s' & F' & X').
      rewrite Nat.add_succ_r in F'. eauto.
    + intros e He. simpl in He. apply removeById_In in He as (He & Hn).
      destruct (Q e He) as [E|E]; [congruence|exact E].
    + destruct (drainLoop w rest (S i) _) as [st' tr]. simpl in *.
      split; [exact E|now rewrite L].
Qed.

(** When every delivery of a pass is answered with a 2xx or a 4xx status,
    every entry is delivered and the queue is empty afterwards, whatever the
    ids of the entries. *)
Theorem acknowledged_pass_empties_queue (w : World) (st : SyncStoreState) :
  (forall j, (j < length (queue st))%nat ->
     exists s, fetch w j = Response s /\ xorb (is2xx s) (is4xx s) = true) ->
  queue (fst (processQueue w st)) = [] /\
  length (snd (processQueue w st)) = length (queue st) /\
  isProcessing (fst (processQueue w st)) = false.
Proof.
  intros A.
  rewrite processQueue_trace, processQueue_isProcessing.
  unfold processQueue.
  destruct (drainLoop_all_acknowledged w (queue st) 0 (set_isProcessing true st))
    as (E & L).
  - exact A.
  - intros e He. now apply in_map.
  - destruct (queue st) as [|a rest] eqn:Q; [auto|].
    destruct (drainLoop w (a :: rest) 0 (set_isProcessing true st)) as [st' tr].
    simpl in *. auto.
Qed.

Lemma acknowledged_pass_empties_queue_witness :
  let st := mkStore [Samples.entry "1" 0 None; Samples.entry "1" 3 None;
                     Samples.entry "2" 0 None] false in
  queue (fst (processQueue (Samples.always (Response 204) 0) st)) = [].
Proof.
  intros st.
  apply (acknowledged_pass_empties_queue (Samples.always (Response 204) 0) st).
  intros j _. exists 204. split; reflexivity.
Defined.

(** *** What a pass leaves of the queue *)

Lemma sameRequest_refl e : sameRequest e e.
Proof. unfold sameRequest. repeat split. Qed.

Lemma sameRequest_trans e1 e2 e3 :
  sameRequest e1 e2 -> sameRequest e2 e3 -> sameRequest e1 e3.
Proof.
  unfold sameRequest. intros H1 H2.
  destruct H1 as (A1 & A2 & A3 & A4 & A5 & A6 & A7 & A8).
  destruct H2 as (B1 & B2 & B3 & B4 & B5 & B6 & B7 & B8).
  repeat split; congruence.
Qed.

Lemma Survives_refl q : Survives q q.
Proof.
  induction q as [|e q IH]; [constructor|].
  apply Survives_keep; [apply sameRequest_refl|lia|exact IH].
Qed.

Lemma Survives_trans q1 q2 :
  Survives q1 q2 -> forall q3, Survives q2 q3 -> Survives q1 q3.
Proof.
  induction 1 as [|e q q' S IH|e e' q q' R A S IH]; intros q3 H.
  - exact H.
  - constructor. now apply IH.
  - inversion H as [|? ? ? S'|? e3 ? q3' R' A' S']; subst.
    + constructor. now apply IH.
    + apply Survives_keep; [eapply sameRequest_trans; eauto|lia|now apply IH].
Qed.

Lemma Survives_In q q' :
  Survives q q' ->
  forall e', In e' q' ->
  exists e, In e q /\ sameRequest e e' /\ (attempts e <= attempts e')%nat.
Proof.
  induction 1 as [|e q q' S IH|e e1 q q' R A S IH]; intros e' He'.
  - destruct He'.
  - destruct (IH e' He') as (x & Hx & H). exists x. split; [now right|exact H].
  - destruct He' as [<-|He'].
    + exists e. split; [now left|auto].
    + destruct (IH e' He') as (x & Hx & H). exists x. split; [now right|exact H].
Qed.

Lemma Pass_Survives w i acts tr q' :
  Pass w i acts tr q' -> Survives acts q'.
Proof.
  induction 1.
  - constructor.
  - now constructor.
  - apply Survives_keep; [apply sameRequest_refl|lia|assumption].
  - apply Survives_keep; [|simpl; lia|apply Survives_refl].
    unfold sameRequest. repeat split.
  - apply Survives_refl.
Qed.

(** In a queue of distinct ids, passes never add an entry and never change
    the order of the entries; an entry that is still queued after any number
    of passes is the request it was (same id, url, method, body, headers,
    cap, creation time and idempotency key [requestId]), and its counter is
    not lower. *)
Theorem passes_keep_requests_in_order (ws : list World) :
  forall st : SyncStoreState,
  NoDup (map id (queue st)) ->
  Survives (queue st) (queue (execAll st (map OpDrain ws))) /\
  (forall e', In e' (queue (execAll st (map OpDrain ws))) ->
     exists e, In e (queue st) /\ sameRequest e e' /\
               (attempts e <= attempts e')%nat).
Proof.
  assert (S : forall st, NoDup (map id (queue st)) ->
                Survives (queue st) (queue (execAll st (map OpDrain ws)))).
  { induction ws as [|w ws IH]; intros st ND.
    - apply Survives_refl.
    - simpl map. simpl execAll. unfold exec.
      destruct (processQueue_Pass w st ND) as (q' & P & E).
      eapply Survives_trans; [eapply Pass_Survives; eauto|].
      pose proof (IH (fst (processQueue w st)) (processQueue_NoDup w st ND)) as H.
      rewrite E in H at 1. exact H. }
  intros st ND. split; [now apply S|].
  apply Survives_In. now apply S.
Qed.

Lemma passes_keep_requests_in_order_witness :
  let w := mkWorld (fun k => match k with
                             | O => Response 200
                             | _ => Response 503
                             end)
                   (fun _ => mkClock 1000 1000) in
  let st := mkStore [Samples.entry "1" 0 None; Samples.entry "2" 0 None;
                     Samples.entry "3" 0 None] false in
  Survives (queue st) (queue (execAll st (map OpDrain [w; w]))).
Proof.
  intros w st.
  destruct (passes_keep_requests_in_order [w; w] st) as (H & _).
  - simpl. repeat constructor; simpl; intuition discriminate.
  - exact H.
Defined.

(** *** Enqueueing and discarding *)

Lemma processQueue_offline w st :
  fetch w 0 = NetworkError ->
  queue (fst (processQueue w st)) = queue st /\
  isProcessing (fst (processQueue w st)) = false /\
  snd (processQueue w st)
  = match queue st with
    | [] => []
    | a :: _ => [mkAttempt 0 a NetworkError]
    end.
Proof.
  intros F. unfold processQueue.
  destruct st as [q b]. simpl queue.
  destruct q as [|a rest]; [auto|].
  rewrite drainLoop_cons. cbv zeta. rewrite F. simpl. auto.
Qed.

(** Enqueueing while nothing is in flight and the network is down: the new
    entry, with no attempt counted and with the caller's [requestId] (a
    generated one if the caller gave none or an empty one), is appended; the
    entries queued before are left as they are; the one delivery that is
    tried is that of the first entry of the queue. *)
Theorem offline_enqueue_appends (w : World) (g : Fresh) (request : NewRequest)
        (st : SyncStoreState) :
  isProcessing st = false ->
  fetch w 0 = NetworkError ->
  let new := newRequest g request in
  fst (addToQueue w g request st) = mkStore (queue st ++ [new]) false /\
  snd (addToQueue w g request st)
  = [mkAttempt 0 (hd new (queue st)) NetworkError] /\
  attempts new = 0%nat /\
  requestId new = Some (match nr_requestId request with
                        | Some r => if String.eqb r "" then fresh_requestId g
                                    else r
                        | None => fresh_requestId g
                        end).
Proof.
  intros B F. cbv zeta. unfold addToQueue, appendRequest.
  simpl isProcessing. rewrite B. simpl negb. cbv iota.
  destruct (processQueue_offline w
              (set_queue (queue st ++ [newRequest g request]) st) F)
    as (Q & P & T).
  split; [|split; [|split; reflexivity]].
  - destruct (fst (processQueue w _)) as [q b]. simpl in *. congruence.
  - rewrite T. simpl queue. destruct (queue st); reflexivity.
Qed.

Lemma offline_enqueue_appends_witness :
  fst (addRequestToQueue offline (Samples.gen "2" 5)
         "https://shop.example/api/orders" POST None None (Some "")
         (mkStore [Samples.entry "1" 2 (Some 9)] false))
  = mkStore [Samples.entry "1" 2 (Some 9);
             mkRequest "id2" "https://shop.example/api/orders" POST None None
                       0 None 5 None None (Some "req_2")] false.
Proof.
  unfold addRequestToQueue.
  apply (offline_enqueue_appends offline (Samples.gen "2" 5)
           (mkNew "https://shop.example/api/orders" POST None None
                  None None None (Some ""))
           (mkStore [Samples.entry "1" 2 (Some 9)] false));
    reflexivity.
Defined.

(** [removeFromQueue] removes the entries with the given id and no other,
    keeps the order of the rest, and changes nothing when no entry has the
    id; a pass that starts afterwards delivers no entry with that id. *)
Theorem removed_request_is_not_delivered (i : string) (st : SyncStoreState)
        (w : World) :
  (forall e, In e (queue (removeFromQueue i st)) <-> In e (queue st) /\ id e <> i) /\
  queue (removeFromQueue i st) = filter (fun e => negb (String.eqb (id e) i)) (queue st) /\
  (~ In i (map id (queue st)) -> removeFromQueue i st = st) /\
  removeFromQueue i (removeFromQueue i st) = removeFromQueue i st /\
  (forall x, In x (snd (processQueue w (removeFromQueue i st))) ->
             id (att_action x) <> i).
Proof.
  split; [intros e; apply removeById_In|].
  split; [reflexivity|]. split; [|split].
  - intros H. unfold removeFromQueue. rewrite (removeById_absent _ _ H).
    now destruct st.
  - unfold removeFromQueue, set_queue. simpl. f_equal.
    apply removeById_absent. intros H.
    apply in_map_iff in H as (e & E & He).
    apply removeById_In in He as (_ & N). contradiction.
  - intros x Hx. rewrite processQueue_trace in Hx.
    destruct (In_nth_error _ _ Hx) as (j & Hj).
    destruct (drainLoop_trace _ _ _ _ _ _ Hj) as (_ & H & _).
    apply nth_error_In in H. now apply removeById_In in H.
Qed.


(** *** Passes started by enqueues only *)

Lemma startProcessQueue_single (s : System) :
  tasks s = [] ->
  (tasks (startProcessQueue s) = [] /\
   isProcessing (store (startProcessQueue s)) = false) \/
  (exists t, tasks (startProcessQueue s) = [t] /\
             isProcessing (store (startProcessQueue s)) = true).
Proof.
  intros T. unfold startProcessQueue.
  destruct (queue (store s)); simpl; rewrite T; simpl; eauto.
Qed.

Lemma settle_single (k : nat) (c : Clock) (r : FetchResult) (s : System) (t : Task) :
  tasks s = [t] -> isProcessing (store s) = true ->
  (tasks (settle k c r s) = [] /\
   isProcessing (store (settle k c r s)) = false) \/
  (exists t', tasks (settle k c r s) = [t'] /\
              isProcessing (store (settle k c r s)) = true).
Proof.
  intros T B. unfold settle. rewrite T.
  destruct k as [|k]; simpl; [|destruct k; simpl; eauto].
  destruct (pending t) as [|action rest]; [eauto|].
  pose proof (handleResult_isProcessing c action r (store s)) as P.
  destruct (handleResult c action r (store s)) as [st' cont]. simpl in P.
  destruct (if cont then rest else []); simpl; [auto|].
  right. eexists. split; [reflexivity|congruence].
Qed.

(** When passes are started by enqueues only (no connectivity, foreground,
    timer or manual trigger), at most one pass is in flight at any time, and
    [isProcessing] is set exactly while one is. *)
Theorem enqueue_driven_passes_never_overlap (es : list Event)
        (q : list QueuedRequest) :
  Forall (fun e => enqueueDriven e = true) es ->
  let s := run (idle (mkStore q false)) es in
  (tasks s = [] /\ isProcessing (store s) = false) \/
  (exists t, tasks s = [t] /\ isProcessing (store s) = true).
Proof.
  intros F. cbv zeta.
  assert (G : forall s,
             ((tasks s = [] /\ isProcessing (store s) = false) \/
              (exists t, tasks s = [t] /\ isProcessing (store s) = true)) ->
             (tasks (run s es) = [] /\ isProcessing (store (run s es)) = false) \/
             (exists t, tasks (run s es) = [t] /\
                        isProcessing (store (run s es)) = true)).
  { induction F as [|e es He F IH]; intros s I; [exact I|].
    unfold run. simpl fold_left. apply IH.
    destruct e as [| | | |g request|k c r]; try discriminate He.
    - simpl. destruct I as [(T & B)|(t & T & B)].
      + unfold appendRequest, set_queue. simpl. rewrite B. simpl.
        apply startProcessQueue_single. exact T.
      + unfold appendRequest, set_queue. simpl. rewrite B. simpl. eauto.
    - simpl. destruct I as [(T & B)|(t & T & B)].
      + left. unfold settle. rewrite T. destruct k; simpl; auto.
      + eapply settle_single; eauto. }
  apply G. left. auto.
Qed.

Lemma enqueue_driven_passes_never_overlap_witness :
  let s := run (idle (mkStore [] false))
               [Enqueue (Samples.gen "1" 0) Samples.sampleRequest;
                Enqueue (Samples.gen "2" 1) Samples.sampleRequest;
                FetchSettled 0 (mkClock 2 2) (Response 200);
                Enqueue (Samples.gen "3" 3) Samples.sampleRequest] in
  (tasks s = [] /\ isProcessing (store s) = false) \/
  (exists t, tasks s = [t] /\ isProcessing (store s) = true).
Proof.
  apply (enqueue_driven_passes_never_overlap
           [Enqueue (Samples.gen "1" 0) Samples.sampleRequest;
            Enqueue (Samples.gen "2" 1) Samples.sampleRequest;
            FetchSettled 0 (mkClock 2 2) (Response 200);
            Enqueue (Samples.gen "3" 3) Samples.sampleRequest] []).
  repeat constructor.
Defined.

(** *** The timer *)

Lemma hasReadyRequests_none (now : Z) (q : list QueuedRequest) :
  Forall (fun r => nextRetryAt r = None) q -> hasReadyRequests now q = false.
Proof.
  induction 1 as [|r q H F IH]; [reflexivity|].
  unfold hasReadyRequests in *. simpl. now rewrite H, IH.
Qed.

(** The timer starts a pass only for an entry whose retry time has come.  A
    queue whose entries carry no retry time (never delivered, or failed with
    network errors only) is left alone by every tick.  After a pass in which
    the first entry was answered with a status of 500 or more, the others
    carrying no retry time, a tick does nothing before the entry's retry
    time [Date.now() + backoff] and starts a pass from then on. *)
Theorem timer_waits_for_retry_time :
  (forall (s : System) (now : Z),
     Forall (fun r => nextRetryAt r = None) (queue (store s)) ->
     step s (TimerTick now) = s) /\
  (forall (w : World) (e : QueuedRequest) (rest : list QueuedRequest) (b : bool)
          (s : Z) (now : Z),
     NoDup (map id (e :: rest)) ->
     Forall (fun r => nextRetryAt r = None) rest ->
     fetch w 0 = Response s -> 500 <= s ->
     let after := idle (fst (processQueue w (mkStore (e :: rest) b))) in
     step after (TimerTick now)
     = if date_now (clock w 0) + backoffMs (attempts e + 1) <=? now
       then startProcessQueue after else after).
Proof.
  split.
  - intros s now F. simpl. now rewrite hasReadyRequests_none.
  - intros w e rest b s now ND F Fw S5. cbv zeta.
    assert (R : retryable (fetch w 0) = true).
    { rewrite Fw. apply retryable_spec. left. eauto. }
    rewrite (processQueue_head_retryable w e rest b ND R), Fw.
    cbn [fst step idle store queue].
    unfold hasReadyRequests. simpl existsb.
    fold (hasReadyRequests now rest). rewrite (hasReadyRequests_none now rest F).
    now rewrite orb_false_r.
Qed.

Lemma timer_waits_for_retry_time_witness :
  let w := Samples.always (Response 503) 1000 in
  let after := idle (fst (processQueue w (mkStore [Samples.entry "1" 0 None;
                                                   Samples.entry "2" 0 None]
                                                  false))) in
  step after (TimerTick 30999) = after /\
  tasks (step after (TimerTick 31000)) <> [].
Proof.
  intros w after.
  destruct timer_waits_for_retry_time as (_ & H).
  assert (ND : NoDup (map id [Samples.entry "1" 0 None; Samples.entry "2" 0 None])).
  { simpl. repeat constructor; simpl; intuition discriminate. }
  split.
  - apply (H w (Samples.entry "1" 0 None) [Samples.entry "2" 0 None] false
             503 30999 ND); [repeat constructor|reflexivity|lia].
  - unfold after.
    rewrite (H w (Samples.entry "1" 0 None) [Samples.entry "2" 0 None] false
               503 31000 ND); [|repeat constructor|reflexivity|lia].
    simpl. discriminate.
Defined.

(** *** [getQueueStatus] *)





(* ================================================================== *)
(** ** Properties of the role tables                                   *)
(* ================================================================== *)

Module Roles.
Import RoleAccess.

(** A missing role is treated as the cashier role, and the roles are
    ordered: what a cashier may open a manager may open, and what a manager
    may open an admin may open, for tabs and for the entries of the More
    menu alike. *)
Theorem roles_are_ordered (tab : TabName) (item : MoreMenuItem) :
  canAccessTab None tab = canAccessTab (Some cashier) tab /\
  canAccessMoreMenuItem None item = canAccessMoreMenuItem (Some cashier) item /\
  (canAccessTab (Some cashier) tab = true ->
   canAccessTab (Some manager) tab = true) /\
  (canAccessTab (Some manager) tab = true ->
   canAccessTab (Some admin) tab = true) /\
  (canAccessMoreMenuItem (Some cashier) item = true ->
   canAccessMoreMenuItem (Some manager) item = true) /\
  (canAccessMoreMenuItem (Some manager) item = true ->
   canAccessMoreMenuItem (Some admin) item = true).
Proof.
  repeat split; destruct tab, item; cbn; auto.
Qed.

(** The tables are what the comment above them says: the admin opens
    everything; the manager everything but user management; the cashier the
    tabs Order, Scan, Search and More and, in the More menu, the order
    history, the printer and the payment terminal, and nothing else. *)
Theorem roles_as_documented (tab : TabName) (item : MoreMenuItem) :
  canAccessTab (Some admin) tab = true /\
  canAccessMoreMenuItem (Some admin) item = true /\
  canAccessTab (Some manager) tab = true /\
  (canAccessMoreMenuItem (Some manager) item = true <-> item <> Users) /\
  (canAccessTab (Some cashier) tab = true <-> tab <> Inventory) /\
  (canAccessMoreMenuItem (Some cashier) item = true <->
   item = OrderHistory \/ item = Printer \/ item = PaymentTerminal).
Proof.
  repeat split; destruct tab, item; cbn; intros; try reflexivity;
    try discriminate; try congruence; auto;
    repeat match goal with H : _ \/ _ |- _ => destruct H end;
    try discriminate.
Qed.

End Roles.

(* ================================================================== *)
(** ** More properties of the local-order statements                   *)
(* ================================================================== *)

Module OrdersMore.
Import BasketRepository LocalOrders.

Lemma In_updateWhereId (o : string) (f : LocalOrderRow -> LocalOrderRow)
      (t : Table) (r' : LocalOrderRow) :
  In r' (updateWhereId o f t) <->
  exists r, In r t /\ r' = if String.eqb (id r) o then f r else r.
Proof.
  unfold updateWhereId. rewrite in_map_iff. split.
  - intros (r & E & H). exists r. auto.
  - intros (r & H & E). exists r. auto.
Qed.

Lemma updateWhereId_absent (o : string) (f : LocalOrderRow -> LocalOrderRow)
      (t : Table) :
  ~ In o (map id t) -> updateWhereId o f t = t.
Proof.
  induction t as [|r t IH]; intros H; [reflexivity|].
  simpl. destruct (String.eqb_spec (id r) o) as [E|E].
  - exfalso. apply H. now left.
  - f_equal. apply IH. intros Hin. apply H. now right.
Qed.

Lemma updateWhereId_app_new (o : string) (f : LocalOrderRow -> LocalOrderRow)
      (t : Table) (new : LocalOrderRow) :
  ~ In o (map id t) -> id new = o ->
  updateWhereId o f (t ++ [new])%list = (t ++ [f new])%list.
Proof.
  intros H E. unfold updateWhereId. rewrite map_app.
  fold (updateWhereId o f t). rewrite (updateWhereId_absent o f t H).
  simpl. apply String.eqb_eq in E. now rewrite E.
Qed.

(** An update statement changes no row of another order, keeps the number
    and the order of the rows, leaves the id, the creation time and the
    order content of every row as they are, and changes nothing at all when
    no row has the id it is addressed to. *)
Theorem update_reaches_only_the_addressed_order (t : Table) (s : Statement) :
  isUpdate s = true ->
  length (execute t s) = length t /\
  (forall k r, nth_error t k = Some r ->
     exists r', nth_error (execute t s) k = Some r' /\
                orderContent r' = orderContent r /\
                (id r <> target s -> r' = r)) /\
  (~ In (target s) (map id t) -> execute t s = t).
Proof.
  intros U.
  destruct s as [now o st|now o m tx|now o p|now o ss e|now input];
    try discriminate U; simpl;
    unfold updateOrderStatus, updateOrderPayment, updateOrderSyncSuccess,
           updateOrderSyncError.
  all: split; [unfold updateWhereId; apply length_map|].
  all: split; [|apply updateWhereId_absent].
  all: intros k r H; rewrite (Orders.updateWhereId_nth _ _ _ _ _ H);
    eexists; split; [reflexivity|];
    destruct (String.eqb_spec (id r) o) as [E|E];
    (split; [reflexivity|intros N; congruence]).
Qed.

Lemma update_reaches_only_the_addressed_order_witness :
  execute [Samples.syncedOrder] (UpdateOrderSyncError 7 "o9" "failed" "timeout")
  = [Samples.syncedOrder].
Proof.
  destruct (update_reaches_only_the_addressed_order [Samples.syncedOrder]
              (UpdateOrderSyncError 7 "o9" "failed" "timeout") eq_refl)
    as (_ & _ & H).
  apply H. simpl. intros [H0|[]]. discriminate.
Defined.

Lemma scannedIds_In (o : string) (t : Table) :
  In o (scannedIds t) <->
  exists r, In r t /\ id r = o /\ status r = "paid" /\ sync_status r <> "synced".
Proof.
  unfold scannedIds. rewrite in_map_iff. split.
  - intros (r & E & H). apply Orders.findUnsyncedOrders_In in H.
    exists r. tauto.
  - intros (r & H & E & P). exists r. split; [exact E|].
    apply Orders.findUnsyncedOrders_In. tauto.
Qed.

(** The life of an order as the scan sees it.  A new order (its id not yet
    in the table) is not returned by the unsynced scan; once
    [updateOrderPayment] has marked it paid it is; it still is after
    [updateOrderSyncError] has recorded a failure; after
    [updateOrderSyncSuccess] it is not, and it then carries the remote id
    and the sync date.  The statements leave the scan of the other orders as
    it was. *)
Theorem order_lifecycle_in_the_scan
        (t : Table) (input : CreateLocalOrderInput)
        (now1 now2 now3 now4 : Z)
        (paymentMethod errorMessage platformOrderId : string)
        (transactionId : option string) :
  ~ In (in_id input) (map id t) ->
  let o := in_id input in
  let t1 := createLocalOrder now1 input t in
  let t2 := updateOrderPayment now2 o paymentMethod transactionId t1 in
  let t3 := updateOrderSyncError now3 o "failed" errorMessage t2 in
  let t4 := updateOrderSyncSuccess now4 o platformOrderId t3 in
  ~ In o (scannedIds t1) /\
  In o (scannedIds t2) /\
  In o (scannedIds t3) /\
  ~ In o (scannedIds t4) /\
  (forall r, In r t4 -> id r = o ->
     sync_status r = "synced" /\ platform_order_id r = Some platformOrderId /\
     synced_at r = Some now4 /\ sync_error r = Some errorMessage) /\
  (forall o', o' <> o -> (In o' (scannedIds t4) <-> In o' (scannedIds t))).
Proof.
  intros Fresh. cbv zeta.
  unfold createLocalOrder, updateOrderPayment, updateOrderSyncError,
         updateOrderSyncSuccess.
  rewrite updateWhereId_app_new; [|exact Fresh|reflexivity].
  rewrite updateWhereId_app_new; [|exact Fresh|reflexivity].
  rewrite updateWhereId_app_new; [|exact Fresh|reflexivity].
  cbn [id status sync_status platform_order_id synced_at sync_error].
  set (o := in_id input) in *.
  assert (N : forall r, In r t -> id r <> o).
  { intros r Hr E. apply Fresh. fold o. rewrite <- E. now apply in_map. }
  split; [|split; [|split; [|split; [|split]]]].
  - rewrite scannedIds_In. intros (r & Hr & E & P & S).
    apply in_app_or in Hr as [Hr|[<-|[]]]; [now apply (N r)|discriminate].
  - rewrite scannedIds_In. eexists. split; [apply in_or_app; right; now left|].
    simpl. repeat split; discriminate.
  - rewrite scannedIds_In. eexists. split; [apply in_or_app; right; now left|].
    simpl. repeat split; discriminate.
  - rewrite scannedIds_In. intros (r & Hr & E & P & S).
    apply in_app_or in Hr as [Hr|[<-|[]]]; [now apply (N r)|].
    now apply S.
  - intros r Hr E.
    apply in_app_or in Hr as [Hr|[<-|[]]]; [now destruct (N r)|].
    simpl. auto.
  - intros o' D. rewrite !scannedIds_In. split.
    + intros (r & Hr & E & P & S).
      apply in_app_or in Hr as [Hr|[<-|[]]]; [eauto|].
      simpl in E. congruence.
    + intros (r & Hr & E & P & S). exists r.
      split; [apply in_or_app; now left|auto].
Qed.

Lemma order_lifecycle_in_the_scan_witness :
  let input := mkInput "o2" None "[]" (Qmake 5 1) (Qmake 1 1) (Qmake 6 1)
                       None None None None None None None in
  let t2 := updateOrderPayment 20 "o2" "cash" None
              (createLocalOrder 10 input [Samples.syncedOrder]) in
  In "o2" (scannedIds t2) /\
  ~ In "o2" (scannedIds (updateOrderSyncSuccess 40 "o2" "P2"
                           (updateOrderSyncError 30 "o2" "failed" "timeout" t2))).
Proof.
  intros input t2.
  destruct (order_lifecycle_in_the_scan [Samples.syncedOrder] input
              10 20 30 40 "cash" "timeout" "P2" None)
    as (_ & H2 & _ & H4 & _).
  - simpl. intros [H|[]]. discriminate.
  - split; [exact H2|exact H4].
Defined.

(** *** [findLocalOrders] *)

Lemma insertByCreatedAtDesc_perm (r : LocalOrderRow) (l : list LocalOrderRow) :
  Permutation (insertByCreatedAtDesc r l) (r :: l).
Proof.
  induction l as [|x l IH]; simpl; [apply Permutation_refl|].
  destruct (created_at x <? created_at r).
  - apply Permutation_refl.
  - eapply Permutation_trans; [apply perm_skip, IH|apply perm_swap].
Qed.

Lemma orderByCreatedAtDesc_perm (l : list LocalOrderRow) :
  Permutation (orderByCreatedAtDesc l) l.
Proof.
  induction l as [|x l IH]; simpl; [constructor|].
  eapply Permutation_trans; [apply insertByCreatedAtDesc_perm|].
  now apply perm_skip.
Qed.

Lemma insertByCreatedAtDesc_sorted (r : LocalOrderRow) (l : list LocalOrderRow) :
  Sorted newerOrSame l -> Sorted newerOrSame (insertByCreatedAtDesc r l).
Proof.
  induction 1 as [|x l S IH H]; simpl.
  - repeat constructor.
  - destruct (Z.ltb_spec (created_at x) (created_at r)).
    + constructor.
      * now constructor.
      * constructor. unfold newerOrSame. lia.
    + constructor.
      * exact IH.
      * destruct l as [|y l]; simpl.
        -- constructor. exact H0.
        -- destruct (created_at y <? created_at r); constructor;
             [exact H0|now inversion H].
Qed.

Lemma orderByCreatedAtDesc_sorted (l : list LocalOrderRow) :
  Sorted newerOrSame (orderByCreatedAtDesc l).
Proof.
  induction l as [|x l IH]; simpl; [constructor|].
  now apply insertByCreatedAtDesc_sorted.
Qed.

(** [findLocalOrders] lists the newest order first.  Without a status, and
    also with the empty string as status, it returns every row of the table
    once; with another status it returns exactly the rows of that status. *)
Theorem findLocalOrders_newest_first (status' : option string) (t : Table) :
  Sorted newerOrSame (findLocalOrders status' t) /\
  (status' = None \/ status' = Some "" ->
   Permutation (findLocalOrders status' t) t) /\
  (forall s, status' = Some s -> s <> "" ->
     Permutation (findLocalOrders status' t)
                 (filter (fun r => String.eqb (status r) s) t) /\
     (forall r, In r (findLocalOrders status' t) <-> In r t /\ status r = s)).
Proof.
  unfold findLocalOrders. split; [|split].
  - destruct status' as [s|]; [destruct (String.eqb s "")|];
      apply orderByCreatedAtDesc_sorted.
  - intros [->| ->]; simpl; apply orderByCreatedAtDesc_perm.
  - intros s -> N. apply String.eqb_neq in N. rewrite N.
    split; [apply orderByCreatedAtDesc_perm|].
    intros r. split.
    + intros H. apply (Permutation_in _ (orderByCreatedAtDesc_perm _)) in H.
      apply filter_In in H as (H1 & H2). apply String.eqb_eq in H2. auto.
    + intros (H1 & H2).
      apply (Permutation_in _ (Permutation_sym (orderByCreatedAtDesc_perm _))).
      apply filter_In. split; [exact H1|]. now apply String.eqb_eq.
Qed.

Lemma findLocalOrders_newest_first_witness :
  let t := [Samples.order "a" 10 "pending"; Samples.order "b" 30 "synced"] in
  Permutation (findLocalOrders (Some "") t) t.
Proof.
  intros t.
  destruct (findLocalOrders_newest_first (Some "") t) as (_ & H & _).
  apply H. now right.
Defined.

End OrdersMore.

(* ================================================================== *)
(** ** Properties of the basket statements                             *)
(* ================================================================== *)

Module BasketProps.
Import Baskets.

Lemma basket_insertByCreatedAtDesc_perm (r : BasketRow) (l : list BasketRow) :
  Permutation (insertByCreatedAtDesc r l) (r :: l).
Proof.
  induction l as [|x l IH]; simpl; [apply Permutation_refl|].
  destruct (created_at x <? created_at r).
  - apply Permutation_refl.
  - eapply Permutation_trans; [apply perm_skip, IH|apply perm_swap].
Qed.

Lemma basket_orderByCreatedAtDesc_perm (l : list BasketRow) :
  Permutation (orderByCreatedAtDesc l) l.
Proof.
  induction l as [|x l IH]; simpl; [constructor|].
  eapply Permutation_trans; [apply basket_insertByCreatedAtDesc_perm|].
  now apply perm_skip.
Qed.

Lemma insertByCreatedAtDesc_head (r : BasketRow) (l : list BasketRow) :
  Forall (newerOrSame (hd r l)) l ->
  exists b tl, insertByCreatedAtDesc r l = b :: tl /\
               Forall (newerOrSame b) (b :: tl).
Proof.
  destruct l as [|x l]; simpl; intros F.
  - exists r, []. split; [reflexivity|]. repeat constructor. unfold newerOrSame. lia.
  - destruct (Z.ltb_spec (created_at x) (created_at r)).
    + exists r, (x :: l). split; [reflexivity|].
      constructor; [unfold newerOrSame; lia|].
      eapply Forall_impl; [|exact F]. unfold newerOrSame. intros a Ha. lia.
    + exists x, (insertByCreatedAtDesc r l). split; [reflexivity|].
      constructor; [unfold newerOrSame; lia|].
      apply Forall_forall. intros a Ha.
      apply (Permutation_in _ (basket_insertByCreatedAtDesc_perm r l)) in Ha.
      destruct Ha as [<-|Ha]; [exact H|].
      inversion F as [|? ? _ F']; subst.
      now apply (proj1 (Forall_forall _ _) F').
Qed.

Lemma orderByCreatedAtDesc_head (l : list BasketRow) :
  match orderByCreatedAtDesc l with
  | [] => l = []
  | b :: tl => Forall (newerOrSame b) (b :: tl)
  end.
Proof.
  induction l as [|x l IH]; [reflexivity|].
  simpl. destruct (orderByCreatedAtDesc l) as [|b tl] eqn:E.
  - simpl. repeat constructor. unfold newerOrSame. lia.
  - destruct (insertByCreatedAtDesc_head x (b :: tl) IH) as (b' & tl' & E' & F).
    now rewrite E'.
Qed.

Lemma findActiveBasket_spec (t : Table) :
  (forall b, findActiveBasket t = Some b ->
     In b t /\ status b = "active" /\
     forall b', In b' t -> status b' = "active" ->
                created_at b' <= created_at b) /\
  (findActiveBasket t = None <-> forall b, In b t -> status b <> "active").
Proof.
  unfold findActiveBasket.
  pose proof (basket_orderByCreatedAtDesc_perm (filter isActive t)) as P.
  pose proof (orderByCreatedAtDesc_head (filter isActive t)) as H.
  destruct (orderByCreatedAtDesc (filter isActive t)) as [|b tl]; simpl.
  - split; [discriminate|]. split; [|reflexivity].
    intros _ b Hb A.
    assert (Hin : In b (filter isActive t)).
    { apply filter_In. split; [exact Hb|]. now apply String.eqb_eq. }
    rewrite H in Hin. destruct Hin.
  - assert (Hb : In b (filter isActive t)).
    { apply (Permutation_in _ P). now left. }
    apply filter_In in Hb as (Hb & A). apply String.eqb_eq in A.
    split.
    + intros b0 E. injection E as <-. split; [exact Hb|]. split; [exact A|].
      intros b' Hb' A'.
      assert (Hin : In b' (b :: tl)).
      { apply (Permutation_in _ (Permutation_sym P)).
        apply filter_In. split; [exact Hb'|]. now apply String.eqb_eq. }
      apply (proj1 (Forall_forall _ _) H b' Hin).
    + split; [discriminate|]. intros N. exfalso. now apply (N b).
Qed.

(** [findActiveBasket] returns an active basket of the table that no active
    basket of the table is newer than, and it returns nothing exactly when
    the table holds no active basket. *)
Theorem findActiveBasket_is_newest_active (t : Table) :
  (forall b, findActiveBasket t = Some b ->
     In b t /\ status b = "active" /\
     forall b', In b' t -> status b' = "active" ->
                created_at b' <= created_at b) /\
  (findActiveBasket t = None <-> forall b, In b t -> status b <> "active").
Proof. exact (findActiveBasket_spec t). Qed.

Lemma orderByCreatedAtDesc_map (f : BasketRow -> BasketRow) (l : list BasketRow) :
  (forall r, created_at (f r) = created_at r) ->
  orderByCreatedAtDesc (map f l) = map f (orderByCreatedAtDesc l).
Proof.
  intros C.
  assert (I : forall r l', insertByCreatedAtDesc (f r) (map f l')
                           = map f (insertByCreatedAtDesc r l')).
  { intros r l'. induction l' as [|x l' IH]; [reflexivity|].
    simpl. rewrite !C. destruct (created_at x <? created_at r); simpl;
      [reflexivity|now rewrite IH]. }
  induction l as [|x l IH]; [reflexivity|].
  simpl. now rewrite IH, I.
Qed.

Lemma filter_map_commute (f : BasketRow -> BasketRow) (l : list BasketRow) :
  (forall r, isActive (f r) = isActive r) ->
  filter isActive (map f l) = map f (filter isActive l).
Proof.
  intros A. induction l as [|x l IH]; [reflexivity|].
  simpl. rewrite A. destruct (isActive x); simpl; now rewrite IH.
Qed.

(** [clearBasket] empties the items, totals and discount of the basket it is
    addressed to, but leaves its status, its customer, its note and its
    creation time as they are; so the active basket is after [clearBasket]
    the basket it was before, cleared if it is the one addressed. *)
Theorem clearBasket_keeps_the_active_basket (now : Z) (basketId : string)
        (t : Table) :
  findActiveBasket (clearBasket now basketId t)
  = option_map (fun b => if String.eqb (id b) basketId then cleared now b else b)
               (findActiveBasket t) /\
  (forall b, let b' := cleared now b in
     id b' = id b /\ status b' = status b /\ created_at b' = created_at b /\
     customer_email b' = customer_email b /\
     customer_name b' = customer_name b /\ note b' = note b /\
     items b' = "[]" /\ discount_amount b' = None /\ discount_code b' = None).
Proof.
  split; [|intros b; cbv zeta; repeat split].
  unfold findActiveBasket, clearBasket, updateWhereId.
  set (f := fun r => if String.eqb (id r) basketId then cleared now r else r).
  rewrite (filter_map_commute f), (orderByCreatedAtDesc_map f).
  - now destruct (orderByCreatedAtDesc (filter isActive t)).
  - intros r. unfold f. now destruct (String.eqb (id r) basketId).
  - intros r. unfold f. now destruct (String.eqb (id r) basketId).
Qed.

(** A basket created later than every active basket of the table is the
    active basket afterwards. *)
Theorem createBasket_becomes_the_active_basket (now : Z)
        (input : CreateBasketInput) (t : Table) :
  (forall b, In b t -> status b = "active" -> created_at b < now) ->
  findActiveBasket (createBasket now input t)
  = Some (mkBasket (c_id input) (c_items input) (c_subtotal input)
                   (c_tax input) (c_total input) None None None None None
                   "active" now now).
Proof.
  intros Old.
  set (new := mkBasket (c_id input) (c_items input) (c_subtotal input)
                       (c_tax input) (c_total input) None None None None None
                       "active" now now).
  destruct (findActiveBasket_spec (createBasket now input t))
    as (S & N).
  destruct (findActiveBasket (createBasket now input t)) as [b|] eqn:E.
  - destruct (S b eq_refl) as (Hb & A & M).
    unfold createBasket in Hb. apply in_app_or in Hb as [Hb|[<-|[]]]; [|reflexivity].
    exfalso. specialize (Old b Hb A).
    assert (Hn : created_at new <= created_at b).
    { apply M; [|reflexivity]. unfold createBasket. apply in_or_app. right. now left. }
    simpl in Hn. lia.
  - exfalso. apply (proj1 N eq_refl new); [|reflexivity].
    unfold createBasket. apply in_or_app. right. now left.
Qed.

Lemma createBasket_becomes_the_active_basket_witness :
  let old := mkBasket "b1" "[]" (Qmake 0 1) (Qmake 0 1) (Qmake 0 1)
                      None None None None None "active" 10 10 in
  option_map id (findActiveBasket
                   (createBasket 20 (mkCreate "b2" "[]" (Qmake 0 1) (Qmake 0 1)
                                              (Qmake 0 1)) [old]))
  = Some "b2".
Proof.
  intros old.
  rewrite (createBasket_becomes_the_active_basket 20
             (mkCreate "b2" "[]" (Qmake 0 1) (Qmake 0 1) (Qmake 0 1)) [old]).
  - reflexivity.
  - intros b [<-|[]] _. simpl. lia.
Defined.

End BasketProps.

(* ================================================================== *)
(** ** Properties of [KeyValueRepository]                              *)
(* ================================================================== *)

Module KeyValueProps.
Import KeyValueRepository.

Lemma getItem_upsert_same (now : Z) (k v : string) (t : Table) :
  getItem k (upsert now k v t) = Some v.
Proof.
  unfold getItem, upsert.
  destruct (existsb (fun r => String.eqb (key r) k) t) eqn:E.
  - induction t as [|r t IH]; [discriminate|].
    simpl in *. destruct (String.eqb (key r) k) eqn:K; simpl.
    + rewrite K. reflexivity.
    + rewrite K. now apply IH.
  - induction t as [|r t IH]; simpl.
    + now rewrite String.eqb_refl.
    + simpl in E. apply orb_false_elim in E as (K & E).
      rewrite K. now apply IH.
Qed.

Lemma getItem_upsert_other (now : Z) (k k' v : string) (t : Table) :
  k' <> k -> getItem k' (upsert now k v t) = getItem k' t.
Proof.
  intros N.
  assert (K : String.eqb k k' = false) by (apply String.eqb_neq; congruence).
  unfold getItem, upsert.
  destruct (existsb (fun r => String.eqb (key r) k) t); f_equal.
  - induction t as [|r t IH]; [reflexivity|].
    simpl. destruct (String.eqb_spec (key r) k) as [E|E]; simpl.
    + rewrite E, K. exact IH.
    + destruct (String.eqb (key r) k'); [reflexivity|exact IH].
  - induction t as [|r t IH]; simpl.
    + now rewrite K.
    + destruct (String.eqb (key r) k'); [reflexivity|exact IH].
Qed.

Lemma containsKey_getItem (k : string) (t : Table) :
  containsKey k t = true <-> getItem k t <> None.
Proof.
  unfold containsKey, getItem.
  induction t as [|r t IH]; simpl.
  - split; [discriminate|congruence].
  - destruct (String.eqb (key r) k); simpl; [|exact IH].
    split; [discriminate|reflexivity].
Qed.

(** Round trip of [setItem] and [getItem]: the value stored under a key is
    read back under that key (a string as it is, any other value as its JSON
    text), the key is then contained, and the values read under the other
    keys are as before. *)
Theorem setItem_then_getItem (J : Type) (stringify : J -> string)
        (now : Z) (k : string) (v : Value J) (t : Table) :
  getItem k (setItem J stringify now k v t) = Some (stringValue J stringify v) /\
  containsKey k (setItem J stringify now k v t) = true /\
  (forall k', k' <> k ->
     getItem k' (setItem J stringify now k v t) = getItem k' t /\
     containsKey k' (setItem J stringify now k v t) = containsKey k' t).
Proof.
  unfold setItem. split; [apply getItem_upsert_same|]. split.
  - apply containsKey_getItem. rewrite getItem_upsert_same. discriminate.
  - intros k' N. pose proof (getItem_upsert_other now k k'
                               (stringValue J stringify v) t N) as G.
    split; [exact G|].
    destruct (containsKey k' t) eqn:C.
    + apply containsKey_getItem. rewrite G. now apply containsKey_getItem.
    + destruct (containsKey k' (upsert _ _ _ t)) eqn:C'; [|reflexivity].
      apply containsKey_getItem in C'. rewrite G in C'.
      apply containsKey_getItem in C'. congruence.
Qed.

Lemma upsert_keys (now : Z) (k v : string) (t : Table) :
  getAllKeys (upsert now k v t)
  = if existsb (fun r => String.eqb (key r) k) t
    then getAllKeys t else (getAllKeys t ++ [k])%list.
Proof.
  unfold upsert, getAllKeys.
  destruct (existsb (fun r => String.eqb (key r) k) t).
  - rewrite map_map. apply map_ext. intros r.
    now destruct (String.eqb (key r) k).
  - now rewrite map_app.
Qed.

Lemma existsb_key (k : string) (t : Table) :
  existsb (fun r => String.eqb (key r) k) t = true <-> In k (getAllKeys t).
Proof.
  unfold getAllKeys. rewrite existsb_exists, in_map_iff. split.
  - intros (r & H & E). apply String.eqb_eq in E. eauto.
  - intros (r & E & H). exists r. split; [exact H|]. now apply String.eqb_eq.
Qed.

(** [setItem] on a key that is stored keeps the rows, their keys and the
    creation time of the row, and replaces its value and update time; on a
    new key it adds one row behind the others.  Keys that are distinct stay
    distinct. *)
Theorem setItem_upserts (J : Type) (stringify : J -> string)
        (now : Z) (k : string) (v : Value J) (t : Table) :
  (In k (getAllKeys t) ->
   getAllKeys (setItem J stringify now k v t) = getAllKeys t /\
   forall i r, nth_error t i = Some r ->
     nth_error (setItem J stringify now k v t) i
     = Some (if String.eqb (key r) k
             then mkRow (key r) (stringValue J stringify v) (created_at r) now
             else r)) /\
  (~ In k (getAllKeys t) ->
   setItem J stringify now k v t
   = (t ++ [mkRow k (stringValue J stringify v) now now])%list) /\
  (NoDup (getAllKeys t) -> NoDup (getAllKeys (setItem J stringify now k v t))).
Proof.
  unfold setItem.
  pose proof (upsert_keys now k (stringValue J stringify v) t) as K.
  pose proof (existsb_key k t) as X.
  split; [|split].
  - intros H. apply X in H. rewrite H in K. split; [exact K|].
    intros i r Hi. unfold upsert. rewrite H, nth_error_map, Hi. reflexivity.
  - intros H. unfold upsert.
    destruct (existsb (fun r => String.eqb (key r) k) t) eqn:E; [|reflexivity].
    exfalso. apply H. now apply X.
  - intros ND. rewrite K.
    destruct (existsb (fun r => String.eqb (key r) k) t) eqn:E; [exact ND|].
    apply NoDup_app; [exact ND|repeat constructor; intros []|].
    intros a Ha [<-|[]]. apply X in Ha. congruence.
Qed.

Lemma setItem_upserts_witness :
  getAllKeys (setItem unit (fun _ => "null") 9 "a" (VString unit "2")
                [mkRow "a" "1" 1 1; mkRow "b" "1" 2 2])
  = ["a"; "b"].
Proof.
  destruct (setItem_upserts unit (fun _ => "null") 9 "a" (VString unit "2")
              [mkRow "a" "1" 1 1; mkRow "b" "1" 2 2]) as (H & _).
  apply H. simpl. now left.
Defined.

(** [removeItem] removes the key: it is not contained afterwards and nothing
    is read under it, while the other keys are read as before; and a key is
    contained exactly when [getItem] finds a value for it. *)
Theorem removeItem_then_getItem (k : string) (t : Table) :
  getItem k (removeItem k t) = None /\
  containsKey k (removeItem k t) = false /\
  (forall k', k' <> k -> getItem k' (removeItem k t) = getItem k' t) /\
  (forall k', containsKey k' t = true <-> getItem k' t <> None) /\
  (~ In k (getAllKeys t) -> removeItem k t = t).
Proof.
  assert (G : getItem k (removeItem k t) = None).
  { unfold getItem, removeItem. induction t as [|r t IH]; [reflexivity|].
    simpl. destruct (String.eqb (key r) k) eqn:E; simpl; [exact IH|].
    now rewrite E. }
  split; [exact G|]. split; [|split; [|split]].
  - destruct (containsKey k (removeItem k t)) eqn:C; [|reflexivity].
    apply containsKey_getItem in C. congruence.
  - clear G. intros k' N. unfold getItem, removeItem. f_equal.
    induction t as [|r t IH]; [reflexivity|].
    simpl. destruct (String.eqb_spec (key r) k) as [E|E]; simpl.
    + assert (K : String.eqb (key r) k' = false)
        by (apply String.eqb_neq; congruence).
      rewrite K. exact IH.
    + destruct (String.eqb (key r) k'); [reflexivity|exact IH].
  - intros k'. apply containsKey_getItem.
  - clear G. unfold removeItem, getAllKeys.
    induction t as [|r t IH]; intros H; [reflexivity|].
    simpl in *. destruct (String.eqb_spec (key r) k) as [E|E]; simpl.
    + exfalso. apply H. now left.
    + f_equal. apply IH. intros Hin. apply H. now right.
Qed.

Lemma getItem_multiSet_other (now : Z) (items : list (string * string)) :
  forall (t : Table) (k : string),
  ~ In k (map fst items) ->
  getItem k (multiSet now items t) = getItem k t.
Proof.
  induction items as [|[k0 v0] items IH]; intros t k H; [reflexivity|].
  unfold multiSet in *. simpl. rewrite IH.
  - apply getItem_upsert_other. intros E. apply H. now left.
  - intros Hin. apply H. now right.
Qed.

Lemma getItem_multiSet (now : Z) (items : list (string * string)) :
  forall (t : Table) (k v : string),
  NoDup (map fst items) -> In (k, v) items ->
  getItem k (multiSet now items t) = Some v.
Proof.
  induction items as [|[k0 v0] items IH]; intros t k v ND H; [destruct H|].
  simpl in ND. inversion ND as [|? ? N ND']; subst.
  destruct H as [E|H].
  - injection E as -> ->. unfold multiSet. simpl.
    fold (multiSet now items (upsert now k v t)).
    rewrite getItem_multiSet_other; [apply getItem_upsert_same|exact N].
  - unfold multiSet. simpl. fold (multiSet now items (upsert now k0 v0 t)).
    now apply IH.
Qed.

(** [multiSet] followed by [multiGet]: items with distinct keys are read
    back, each under its key, in the order asked for; [multiGet] answers
    [null] for a key that is not stored. *)
Theorem multiSet_then_multiGet (now : Z) (items : list (string * string))
        (t : Table) :
  NoDup (map fst items) ->
  multiGet (map fst items) (multiSet now items t)
  = map (fun kv => (fst kv, Some (snd kv))) items /\
  (forall k, ~ In k (map fst items) ->
     multiGet [k] (multiSet now items t) = [(k, getItem k t)]) /\
  (forall keys, multiGet keys [] = map (fun k => (k, None)) keys).
Proof.
  intros ND. split; [|split].
  - unfold multiGet. rewrite map_map. apply map_ext_in.
    intros [k v] H. simpl. f_equal. now apply getItem_multiSet.
  - intros k H. unfold multiGet. simpl. now rewrite getItem_multiSet_other.
  - intros keys. reflexivity.
Qed.

Lemma multiSet_then_multiGet_witness :
  multiGet ["a"; "b"] (multiSet 5 [("a", "1"); ("b", "2")] [mkRow "b" "0" 1 1])
  = [("a", Some "1"); ("b", Some "2")].
Proof.
  apply (multiSet_then_multiGet 5 [("a", "1"); ("b", "2")] [mkRow "b" "0" 1 1]).
  simpl. repeat constructor; simpl; intuition discriminate.
Defined.

(** Round trip of [setObject] and [getObject] for a value whose JSON text
    parses back to it: the value is read back.  [getObject] answers [null]
    for a key that is not stored and for a stored empty string, and throws
    for a stored text that does not parse. *)
Theorem setObject_then_getObject (J : Type) (stringify : J -> string)
        (parse : string -> option J)
        (now : Z) (k : string) (j : J) (t : Table) :
  parse (stringify j) = Some j ->
  stringify j <> "" ->
  getObject J parse k (setObject J stringify now k j t) = Returned (Some j) /\
  (getItem k t = None -> getObject J parse k t = Returned None) /\
  getObject J parse k (setItem J stringify now k (VString J "") t)
  = Returned None /\
  (forall s, s <> "" -> parse s = None ->
     getObject J parse k (setItem J stringify now k (VString J s) t) = Thrown).
Proof.
  intros P N. unfold getObject, setObject, setItem. simpl.
  rewrite !getItem_upsert_same.
  apply String.eqb_neq in N. rewrite N, P.
  split; [reflexivity|]. split; [|split].
  - intros G. now rewrite G.
  - reflexivity.
  - intros s Ns Ps. rewrite getItem_upsert_same.
    apply String.eqb_neq in Ns. now rewrite Ns, Ps.
Qed.

Lemma setObject_then_getObject_witness :
  let stringify (b : bool) := if b then "true" else "false" in
  let parse (s : string) :=
    if String.eqb s "true" then Some true
    else if String.eqb s "false" then Some false else None in
  getObject bool parse "flag" (setObject bool stringify 3 "flag" true [])
  = Returned (Some true).
Proof.
  intros stringify parse.
  apply (setObject_then_getObject bool stringify parse 3 "flag" true []).
  - reflexivity.
  - discriminate.
Defined.

End KeyValueProps.

(* ================================================================== *)
(** ** Properties of the receipt configuration                         *)
(* ================================================================== *)

Module ReceiptProps.
Import ReceiptConfigService.

Lemma length_append (a b : string) :
  String.length (a ++ b) = (String.length a + String.length b)%nat.
Proof.
  induction a as [|c a IH]; simpl; [reflexivity|now rewrite IH].
Qed.

Lemma append_assoc (a b c : string) : (a ++ b) ++ c = a ++ b ++ c.
Proof.
  induction a as [|x a IH]; simpl; [reflexivity|now rewrite IH].
Qed.

Lemma length_repeatString (c : string) (n : nat) :
  String.length (repeatString c n) = (n * String.length c)%nat.
Proof.
  induction n as [|n IH]; simpl; [reflexivity|].
  now rewrite length_append, IH.
Qed.

Lemma length_spaces (n : nat) : String.length (repeatString " " n) = n.
Proof.
  rewrite length_repeatString. simpl. lia.
Qed.

Lemma length_substring0 (n : nat) (s : string) :
  String.length (substring 0 n s) = Nat.min n (String.length s).
Proof.
  revert n. induction s as [|c s IH]; intros [|n]; simpl; auto.
Qed.

Lemma substring0_all (n : nat) (s : string) :
  (String.length s <= n)%nat -> substring 0 n s = s.
Proof.
  revert n. induction s as [|c s IH]; intros [|n] H; simpl in *;
    try reflexivity; try lia.
  f_equal. apply IH. lia.
Qed.

(** The text that [rightAlign] gives has exactly the width of the paper in
    characters: it is the text, cut to that width, behind as many blanks as
    are missing.  The two divider lines have that width as well. *)
Theorem rightAlign_fills_the_line (s : Service) (text : string) :
  let width := getCharacterWidth s in
  rightAlign s text
  = repeatString " " (width - String.length text) ++ substring 0 width text /\
  String.length (rightAlign s text) = width /\
  String.length (getDividerLine s) = width /\
  String.length (getDoubleDividerLine s) = width.
Proof.
  intros width.
  assert (E : rightAlign s text
              = repeatString " " (width - String.length text)
                ++ substring 0 width text).
  { unfold rightAlign. cbv zeta. fold width.
    destruct (Nat.leb_spec width (String.length text)) as [L|L].
    - replace (width - String.length text)%nat with 0%nat by lia. reflexivity.
    - now rewrite (substring0_all width text) by lia. }
  split; [exact E|]. split.
  - rewrite E, length_append, length_spaces, length_substring0. lia.
  - unfold getDividerLine, getDoubleDividerLine.
    rewrite !length_repeatString. fold width. simpl. lia.
Qed.

(** [centerText] puts half of the missing width, rounded down, in blanks
    before the text (cut to the width of the paper) and nothing behind it: the
    line is never longer than the paper is wide, and what is left free behind
    the text is the number of blanks before it, or one more. *)
Theorem centerText_centres (s : Service) (text : string) :
  let width := getCharacterWidth s in
  let padding := ((width - String.length text) / 2)%nat in
  centerText s text = repeatString " " padding ++ substring 0 width text /\
  (String.length (centerText s text) <= width)%nat /\
  (padding <= width - String.length (centerText s text) <= padding + 1)%nat.
Proof.
  intros width padding.
  assert (E : centerText s text
              = repeatString " " padding ++ substring 0 width text).
  { unfold centerText. cbv zeta. fold width.
    destruct (Nat.leb_spec width (String.length text)) as [L|L].
    - unfold padding.
      replace (width - String.length text)%nat with 0%nat by lia. reflexivity.
    - now rewrite (substring0_all width text) by lia. }
  split; [exact E|].
  rewrite E, length_append, length_spaces, length_substring0.
  pose proof (Nat.div_mod_eq (width - String.length text) 2) as D.
  pose proof (Nat.mod_upper_bound (width - String.length text) 2) as U.
  fold padding in D. lia.
Qed.

(** [formatLine], when both texts and a blank fit on the line: the left
    text, the right text at the end of the line, blanks between them, and the
    line has exactly the width of the paper. *)
Theorem formatLine_pads_between (s : Service) (left right : string) :
  let width := getCharacterWidth s in
  (String.length left + String.length right + 1 <= width)%nat ->
  formatLine s left right
  = left
    ++ repeatString " " (width - String.length left - String.length right)
    ++ right /\
  String.length (formatLine s left right) = width.
Proof.
  intros width H.
  assert (E : formatLine s left right
              = left
                ++ repeatString " "
                     (width - String.length left - String.length right)
                ++ right).
  { unfold formatLine. cbv zeta. fold width.
    destruct (Z.ltb_spec (Z.of_nat width - Z.of_nat (String.length right) - 1)
                         (Z.of_nat (String.length left))) as [L|L]; [lia|].
    do 2 f_equal. f_equal. lia. }
  split; [exact E|].
  rewrite E, !length_append, length_spaces. lia.
Qed.

Lemma formatLine_pads_between_witness :
  formatLine newService "Tea" "2.50"
  = "Tea" ++ repeatString " " 41 ++ "2.50" /\
  String.length (formatLine newService "Tea" "2.50") = 48%nat.
Proof.
  apply (formatLine_pads_between newService "Tea" "2.50").
  vm_compute. lia.
Defined.

(** [formatLine], when the two texts and a blank do not fit: the left text is
    cut so that three dots, one blank and the right text end the line.  The
    right text is never cut: the line has the width of the paper when the
    right text leaves four characters free, and is longer than the paper is
    wide otherwise (three dots, a blank, the right text). *)
Theorem formatLine_truncates_left (s : Service) (left right : string) :
  let width := getCharacterWidth s in
  (width < String.length left + String.length right + 1)%nat ->
  formatLine s left right
  = substring 0 (width - String.length right - 4) left ++ "... " ++ right /\
  String.length (formatLine s left right)
  = Nat.max width (String.length right + 4).
Proof.
  intros width H.
  assert (E : formatLine s left right
              = substring 0 (width - String.length right - 4) left
                ++ "... " ++ right).
  { unfold formatLine, substringTo. cbv zeta. fold width.
    destruct (Z.ltb_spec (Z.of_nat width - Z.of_nat (String.length right) - 1)
                         (Z.of_nat (String.length left))) as [L|L]; [|lia].
    replace (Z.to_nat (Z.of_nat width - Z.of_nat (String.length right) - 1 - 3))
      with (width - String.length right - 4)%nat by lia.
    rewrite length_append, length_substring0.
    replace (Z.to_nat _) with 1%nat by (simpl String.length; lia).
    rewrite append_assoc. reflexivity. }
  split; [exact E|].
  rewrite E, !length_append, length_substring0. simpl String.length. lia.
Qed.

Lemma formatLine_truncates_left_witness :
  formatLine narrowService "Gift card" "1,234,567.00 EUR x 12 pieces"
  = "... 1,234,567.00 EUR x 12 pieces" /\
  String.length (formatLine narrowService "Gift card"
                            "1,234,567.00 EUR x 12 pieces") = 32%nat.
Proof.
  apply (formatLine_truncates_left narrowService "Gift card"
                                   "1,234,567.00 EUR x 12 pieces").
  vm_compute. lia.
Defined.

Lemma snd_save (stringify : ReceiptConfig -> string) (now : Z) (st : State) :
  KeyValueRepository.getItem RECEIPT_CONFIG_KEY (snd (save stringify now st))
  = Some (stringify (config (fst st))) /\
  fst (save stringify now st) = fst st.
Proof.
  unfold save, KeyValueRepository.setObject, KeyValueRepository.setItem. simpl.
  split; [apply KeyValueProps.getItem_upsert_same|reflexivity].
Qed.

Lemma config_assign (f : ReceiptConfig -> ReceiptConfig) (s : Service) :
  config (assign f s) = f (config s) /\
  initialized (assign f s) = initialized s.
Proof.
  unfold assign, config. now destruct (own s).
Qed.

(** [setPrinterModel] with the name of a preset: the printer model becomes
    the preset, header, footer and options stay, the config is stored under
    the key of the receipt config, and a second call with the same name
    changes nothing more.  On 58 mm paper the character width of the preset is
    stored scaled down, and [getCharacterWidth] scales the stored width down
    once more. *)
Theorem setPrinterModel_applies_the_preset
        (stringify : ReceiptConfig -> string) (now now' : Z)
        (modelType : string) (p : PrinterModel) (st : State) :
  PRINTER_PRESETS modelType = Preset p ->
  let before := config (fst st) in
  let st' := setPrinterModel stringify now modelType st in
  let after := config (fst st') in
  header after = header before /\
  footer after = footer before /\
  options after = options before /\
  printerModel after
  = match paperWidth (options before) with
    | W80 => p
    | W58 => mkModel (type p) (scaleTo58 (characterWidth p)) (supportsBold p)
                     (supportsUnderline p) (supportsBarcode p)
                     (supportsQRCode p) (supportsCut p) (supportsCashDrawer p)
    end /\
  getCharacterWidth (fst st')
  = match paperWidth (options before) with
    | W80 => characterWidth p
    | W58 => scaleTo58 (scaleTo58 (characterWidth p))
    end /\
  KeyValueRepository.getItem RECEIPT_CONFIG_KEY (snd st')
  = Some (stringify after) /\
  config (fst (setPrinterModel stringify now' modelType st')) = after.
Proof.
  intros P before st' after.
  assert (A : after = mkConfig (header before) (footer before) (options before)
                               (presetModel before (Preset p))).
  { unfold after, st', setPrinterModel. rewrite P.
    rewrite (proj2 (snd_save _ _ _)). simpl fst.
    now rewrite (proj1 (config_assign _ _)). }
  assert (S : KeyValueRepository.getItem RECEIPT_CONFIG_KEY (snd st')
              = Some (stringify after)).
  { unfold after, st', setPrinterModel. rewrite P.
    rewrite (proj1 (snd_save _ _ _)), (proj2 (snd_save _ _ _)). reflexivity. }
  assert (I : config (fst (setPrinterModel stringify now' modelType st'))
              = after).
  { unfold setPrinterModel at 1. rewrite P.
    rewrite (proj2 (snd_save _ _ _)). simpl fst.
    rewrite (proj1 (config_assign _ _)). fold after. rewrite A.
    unfold presetModel. simpl. now destruct (paperWidth (options before)). }
  unfold getCharacterWidth. fold after. rewrite A. unfold presetModel. simpl.
  rewrite A in S, I. unfold presetModel in S, I. simpl in S, I.
  destruct (paperWidth (options before)) eqn:W; simpl; rewrite ?W;
    repeat (split; [reflexivity|]); (split; [exact S|exact I]).
Qed.

Lemma setPrinterModel_applies_the_preset_witness :
  let stringify (c : ReceiptConfig) := "{}" in
  let st' := setPrinterModel stringify 5 "citizen" (narrowService, []) in
  characterWidth (printerModel (config (fst st'))) = 28%nat /\
  getCharacterWidth (fst st') = 18%nat.
Proof.
  intros stringify st'.
  destruct (setPrinterModel_applies_the_preset
              stringify 5 6 "citizen"
              (mkModel citizen 42 true true true false true true)
              (narrowService, []) eq_refl)
    as (_ & _ & _ & M & G & _).
  split.
  - unfold st'. rewrite M. reflexivity.
  - exact G.
Defined.

(** Choosing the printer model and choosing the paper width do not commute.
    With 58 mm chosen first, the preset's width is scaled down when it is
    stored and again when it is read; with the model chosen on 80 mm paper and
    58 mm afterwards, it is scaled once; and going back from 58 mm to 80 mm
    after the model was chosen leaves the width scaled down once, not the
    preset's. *)
Theorem paper_width_and_model_do_not_commute
        (stringify : ReceiptConfig -> string) (n1 n2 n3 : Z)
        (modelType : string) (p : PrinterModel) (st : State) :
  PRINTER_PRESETS modelType = Preset p ->
  paperWidth (options (config (fst st))) = W80 ->
  let narrow := mkPartialOptions (Some W58) None None None None None None None in
  let wide := mkPartialOptions (Some W80) None None None None None None None in
  let model := setPrinterModel stringify n2 modelType in
  getCharacterWidth (fst (model (updateOptions stringify n1 narrow st)))
  = scaleTo58 (scaleTo58 (characterWidth p)) /\
  getCharacterWidth (fst (updateOptions stringify n3 narrow (model st)))
  = scaleTo58 (characterWidth p) /\
  getCharacterWidth
    (fst (updateOptions stringify n3 wide
            (model (updateOptions stringify n1 narrow st))))
  = scaleTo58 (characterWidth p).
Proof.
  intros P W narrow wide model.
  unfold model, getCharacterWidth, setPrinterModel, updateOptions.
  rewrite P.
  repeat (rewrite ?(proj2 (snd_save _ _ _)), ?(proj1 (config_assign _ _));
          simpl).
  unfold presetModel. simpl. rewrite W. simpl. auto.
Qed.

Lemma paper_width_and_model_do_not_commute_witness :
  let stringify (c : ReceiptConfig) := "{}" in
  let narrow := mkPartialOptions (Some W58) None None None None None None None in
  getCharacterWidth
    (fst (setPrinterModel stringify 2 "epson"
            (updateOptions stringify 1 narrow (newService, []))))
  = 21%nat /\
  getCharacterWidth
    (fst (updateOptions stringify 3 narrow
            (setPrinterModel stringify 2 "epson" (newService, []))))
  = 32%nat.
Proof.
  intros stringify narrow.
  destruct (paper_width_and_model_do_not_commute
              stringify 1 2 3 "epson"
              (mkModel epson 48 true true true true true true)
              (newService, []) eq_refl eq_refl)
    as (A & B & _).
  split; [exact A|exact B].
Defined.

Lemma call_saves (stringify : ReceiptConfig -> string) (c : Call) (st : State) :
  saves c = true ->
  KeyValueRepository.getItem RECEIPT_CONFIG_KEY (snd (call stringify c st))
  = Some (stringify (config (fst (call stringify c st)))).
Proof.
  destruct c as [now u|now o|now m]; unfold saves, call; intros H.
  - unfold updateConfig.
    now rewrite (proj1 (snd_save _ _ _)), (proj2 (snd_save _ _ _)).
  - unfold updateOptions.
    now rewrite (proj1 (snd_save _ _ _)), (proj2 (snd_save _ _ _)).
  - unfold setPrinterModel.
    destruct (PRINTER_PRESETS m); try discriminate;
      now rewrite (proj1 (snd_save _ _ _)), (proj2 (snd_save _ _ _)).
Qed.

(** What a change of the config stores is what the next start of the app
    loads: after [updateConfig], [updateOptions] or [setPrinterModel] with a
    known name, a new service that is initialized from the store has the
    config that the call left, provided [JSON.parse] gives that config back
    from its JSON text. *)
Theorem saved_config_is_restored
        (stringify : ReceiptConfig -> string)
        (parse : string -> option ReceiptConfig) (c : Call) (st : State) :
  saves c = true ->
  let st' := call stringify c st in
  parse (stringify (config (fst st'))) = Some (config (fst st')) ->
  stringify (config (fst st')) <> "" ->
  let restarted := initialize parse (newService, snd st') in
  config (fst restarted) = config (fst st') /\
  initialized (fst restarted) = true /\
  snd restarted = snd st'.
Proof.
  intros H st' P N restarted.
  pose proof (call_saves stringify c st H) as G. fold st' in G.
  unfold restarted, initialize. simpl.
  unfold KeyValueRepository.getObject. rewrite G.
  apply String.eqb_neq in N. rewrite N, P. simpl. auto.
Qed.

Lemma saved_config_is_restored_witness :
  let stringify (c : ReceiptConfig) :=
    match paperWidth (options c) with W58 => "58" | W80 => "80" end in
  let parse (s : string) :=
    if String.eqb s "58" then Some (config narrowService)
    else if String.eqb s "80" then Some DEFAULT_RECEIPT_CONFIG else None in
  let narrow := mkPartialOptions (Some W58) None None None None None None None in
  config (fst (initialize parse
                 (newService,
                  snd (updateOptions stringify 7 narrow (newService, [])))))
  = config narrowService.
Proof.
  intros stringify parse narrow.
  destruct (saved_config_is_restored stringify parse
              (UpdateOptions 7 narrow) (newService, [])) as (A & _).
  - reflexivity.
  - reflexivity.
  - vm_compute. discriminate.
  - exact A.
Defined.

(** A new service has the object of the default config as its config, and
    [updateOptions] and [setPrinterModel] then assign into that object.  No
    call shows it: what a call makes of the config and of the store depends on
    the config only, not on whether it is the default object, and no call
    changes whether the service is initialized. *)
Theorem default_object_is_not_observable
        (stringify : ReceiptConfig -> string) (c : Call)
        (s1 s2 : Service) (t : KeyValueRepository.Table) :
  config s1 = config s2 ->
  config (fst (call stringify c (s1, t)))
  = config (fst (call stringify c (s2, t))) /\
  snd (call stringify c (s1, t)) = snd (call stringify c (s2, t)) /\
  initialized (fst (call stringify c (s1, t))) = initialized s1.
Proof.
  intros E.
  destruct c as [now u|now o|now m]; simpl.
  - unfold updateConfig, save. simpl. unfold config at 1 3 5 7. simpl.
    rewrite E. auto.
  - unfold updateOptions, save. simpl.
    rewrite !(proj1 (config_assign _ _)), (proj2 (config_assign _ _)), E. auto.
  - unfold setPrinterModel.
    destruct (PRINTER_PRESETS m); unfold save; simpl;
      rewrite ?(proj1 (config_assign _ _)), ?(proj2 (config_assign _ _)), ?E;
      auto.
Qed.

Lemma default_object_is_not_observable_witness :
  let stringify (c : ReceiptConfig) := "{}" in
  let own := mkService (config narrowService) (Some DEFAULT_RECEIPT_CONFIG) false in
  config (fst (call stringify (SetPrinterModel 4 "star") (newService, [])))
  = config (fst (call stringify (SetPrinterModel 4 "star") (own, []))).
Proof.
  intros stringify own.
  apply (default_object_is_not_observable
           stringify (SetPrinterModel 4 "star") newService own []).
  reflexivity.
Defined.

End ReceiptProps.

(* ================================================================== *)
(** ** Properties of the returnable items                              *)
(* ================================================================== *)

Module ReturnProps.
Import ReturnService.

Lemma mapGet_mapSet (k k' : string) (v : Z) (m : NumberMap) :
  mapGet k (mapSet k' v m) = if String.eqb k' k then Some v else mapGet k m.
Proof.
  induction m as [|[k0 v0] m IH]; simpl.
  - reflexivity.
  - destruct (String.eqb_spec k0 k') as [E|E]; simpl.
    + subst k0. now destruct (String.eqb k' k).
    + destruct (String.eqb_spec k0 k) as [E'|E']; [|exact IH].
      subst k0. destruct (String.eqb_spec k' k); [congruence|reflexivity].
Qed.

Lemma returnedMap_sums (key : string)
      (existingReturns : list ReturnRepository.ReturnRow) :
  orZero (mapGet key (returnedMap existingReturns))
  = returnedFor key existingReturns.
Proof.
  unfold returnedMap.
  assert (G : forall m,
             orZero (mapGet key
                       (fold_left
                          (fun m ret =>
                             if counted ret
                             then let key := returnKey ret in
                                  mapSet key (orZero (mapGet key m)
                                              + ReturnRepository.quantity ret) m
                             else m)
                          existingReturns m))
             = orZero (mapGet key m) + returnedFor key existingReturns).
  { induction existingReturns as [|ret rs IH]; intros m.
    - unfold returnedFor. simpl. lia.
    - simpl fold_left. rewrite IH. unfold returnedFor. simpl filter.
      destruct (counted ret); simpl andb; [|reflexivity].
      cbv zeta. rewrite mapGet_mapSet.
      destruct (String.eqb_spec (returnKey ret) key) as [E|E]; simpl.
      + subst key. lia.
      + reflexivity. }
  rewrite G. simpl. reflexivity.
Qed.

Lemma filter_map {A B} (p : B -> bool) (f : A -> B) (l : list A) :
  filter p (map f l) = map f (filter (fun a => p (f a)) l).
Proof.
  induction l as [|a l IH]; simpl; [reflexivity|].
  destruct (p (f a)); simpl; now rewrite IH.
Qed.

(** [getReturnableItems] gives, in the order of the order items, the items
    of which the quantity is above the quantity returned so far, each with
    what is left to return.  Returned so far is the sum over the completed and
    approved returns recorded for the id of the order item; a return without
    an order item id counts for the order item whose id is the product id of
    the return, and pending and rejected returns do not count.  So the
    returnable quantity of every item given is positive and is the original
    quantity less the returned one. *)
Theorem getReturnableItems_lists_what_is_left
        (orderItems : list OrderItemRepository.OrderItemRow)
        (existingReturns : list ReturnRepository.ReturnRow) :
  getReturnableItems orderItems existingReturns
  = map (fun item =>
           returnable (returnedFor (OrderItemRepository.id item) existingReturns)
                      item)
        (filter (fun item =>
                   returnedFor (OrderItemRepository.id item) existingReturns
                   <? OrderItemRepository.quantity item)
                orderItems) /\
  (forall r, In r (getReturnableItems orderItems existingReturns) ->
     0 < returnableQuantity r /\
     returnableQuantity r = originalQuantity r - returnedQuantity r /\
     returnedQuantity r = returnedFor (orderItemId r) existingReturns) /\
  getReturnableItems orderItems existingReturns
  = getReturnableItems orderItems (filter counted existingReturns).
Proof.
  assert (E : forall rs,
             getReturnableItems orderItems rs
             = map (fun item =>
                      returnable (returnedFor (OrderItemRepository.id item) rs)
                                 item)
                   (filter (fun item =>
                              returnedFor (OrderItemRepository.id item) rs
                              <? OrderItemRepository.quantity item)
                           orderItems)).
  { intros rs. unfold getReturnableItems. cbv zeta. rewrite filter_map.
    simpl.
    induction orderItems as [|item items IH]; [reflexivity|].
    simpl. rewrite returnedMap_sums.
    destruct (Z.ltb_spec (returnedFor (OrderItemRepository.id item) rs)
                         (OrderItemRepository.quantity item)) as [L|L].
    - replace (0 <? Z.max 0 _) with true by (symmetry; apply Z.ltb_lt; lia).
      simpl. rewrite IH. f_equal. unfold returnable.
      f_equal; rewrite ?returnedMap_sums; lia.
    - replace (0 <? Z.max 0 _) with false by (symmetry; apply Z.ltb_ge; lia).
      exact IH. }
  split; [apply E|]. split.
  - intros r H. rewrite E in H. apply in_map_iff in H as (item & <- & H).
    apply filter_In in H as (_ & L). apply Z.ltb_lt in L.
    unfold returnable. simpl. repeat split; lia.
  - rewrite !E.
    assert (F : forall key,
               returnedFor key (filter counted existingReturns)
               = returnedFor key existingReturns).
    { intros key. unfold returnedFor. do 2 f_equal.
      induction existingReturns as [|ret rs IH]; [reflexivity|].
      simpl. destruct (counted ret) eqn:C; simpl; rewrite ?C; simpl;
        now rewrite IH. }
    clear E.
    induction orderItems as [|item items IH]; [reflexivity|].
    simpl. rewrite F.
    destruct (_ <? _); simpl; rewrite ?F; now rewrite IH.
Qed.

End ReturnProps.
